(** * Open Library client: query construction, memoisation and formatting

    A shallow embedding of [src/lib/open_library_api.py]: the class
    [OpenLibraryAPI] with its memoised method [search_books] and its
    formatter [format_search_result].

    Conventions of the embedding.
    - A Python [str] is a Rocq [string]; character [n] of the string is
      the code point [n] (so the model covers text in the range 0..255).
      Slicing, joining and replacing act per character, as in Python.
    - A Python [int] is a [Z].
    - A raised exception is a value of [exn]; a computation that may raise
      has type [outcome A].
    - A [dict] is an association list in insertion order; a well-formed
      dict has no repeated key, and lookup returns the first binding.
    - The decorator [functools.lru_cache] is a function from the method
      to its memoised version, acting on a state that holds the memo.
    - The catalogue behind [session.get] is a parameter: a function from
      the number of the request and its parameters to the answer.
    - The keyboard is the list of the lines still to be read; [print]
      and the prompt of [input] each add an entry to the standard
      output.  The loop of [main] is run for a bounded number of turns,
      one more than there are lines, which is proved to be enough. *)

From Stdlib Require Import String Ascii List ZArith Bool Arith Lia.
From Stdlib Require Import DecimalString FinFun Permutation.
Import ListNotations.
Local Open Scope list_scope.
Local Open Scope string_scope.

Set Implicit Arguments.
Set Warnings "-register-all".

(* ================================================================= *)
(** ** Exceptions and results *)

Inductive exn : Type :=
| ValueError (msg : string)
| TypeError
| AttributeError
| RequestException (msg : string).

Inductive outcome (A : Type) : Type :=
| Return (a : A)
| Raise (e : exn).

Arguments Return {A} a.
Arguments Raise {A} e.

Definition bind {A B : Type} (m : outcome A) (k : A -> outcome B) : outcome B :=
  match m with
  | Return a => k a
  | Raise e => Raise e
  end.

Notation "x <- m ;; k" := (bind m (fun x => k))
  (at level 61, m at next level, right associativity).

(* ================================================================= *)
(** ** Text *)

Module Text.

(** The line feed, written [\n] in the source. *)
Definition nl : string := String (ascii_of_nat 10) EmptyString.

(** [sep.join(parts)] for parts that are all text. *)
Fixpoint join (sep : string) (parts : list string) : string :=
  match parts with
  | [] => ""
  | [p] => p
  | p :: rest => p ++ sep ++ join sep rest
  end.

(** The characters of a text, each as a one-character text: what
    iterating over a [str] yields. *)
Fixpoint chars (s : string) : list string :=
  match s with
  | EmptyString => []
  | String c s' => String c EmptyString :: chars s'
  end.

(** [s.replace(old, new)] for a one-character [old]: every occurrence
    of the character is replaced, left to right. *)
Fixpoint replace (old : ascii) (new : string) (s : string) : string :=
  match s with
  | EmptyString => EmptyString
  | String c s' =>
      if Ascii.eqb c old then new ++ replace old new s'
      else String c (replace old new s')
  end.

(** [s[:n]] on text. *)
Definition slice_to (n : nat) (s : string) : string := substring 0 n s.

(** [str(z)] for an [int]. *)
Definition of_int (z : Z) : string := NilZero.string_of_int (Z.to_int z).

(** [template.format(arg)] for a template with one [{}] field and no
    other brace: the first [{}] is replaced by the argument's text. *)
Fixpoint format1 (template arg : string) : string :=
  match template with
  | String "{" (String "}" rest) => arg ++ rest
  | String c rest => String c (format1 rest arg)
  | EmptyString => EmptyString
  end.

Definition hex_digit (n : nat) : ascii :=
  nth n ["0"; "1"; "2"; "3"; "4"; "5"; "6"; "7"; "8"; "9";
         "a"; "b"; "c"; "d"; "e"; "f"]%char "0"%char.

Definition dquote : ascii := ascii_of_nat 34.
Definition squote : ascii := ascii_of_nat 39.
Definition backslash : ascii := ascii_of_nat 92.

Fixpoint mem (c : ascii) (s : string) : bool :=
  match s with
  | EmptyString => false
  | String c' s' => Ascii.eqb c c' || mem c s'
  end.

(** One character of [repr(s)], for the chosen quote. *)
Definition repr_char (quote c : ascii) : string :=
  let n := nat_of_ascii c in
  if Ascii.eqb c quote || Ascii.eqb c backslash then
    String backslash (String c EmptyString)
  else if (n =? 9)%nat then String backslash "t"
  else if (n =? 10)%nat then String backslash "n"
  else if (n =? 13)%nat then String backslash "r"
  else if ((n <? 32) || ((127 <=? n) && (n <=? 160)) || (n =? 173))%nat then
    String backslash
      (String "x" (String (hex_digit (n / 16))
                     (String (hex_digit (n mod 16)) EmptyString)))
  else String c EmptyString.

Fixpoint repr_body (quote : ascii) (s : string) : string :=
  match s with
  | EmptyString => EmptyString
  | String c s' => repr_char quote c ++ repr_body quote s'
  end.

(** [repr(s)] for text: single quotes, unless the text holds a single
    quote and no double quote. *)
Definition repr (s : string) : string :=
  let quote := if mem squote s && negb (mem dquote s) then dquote else squote in
  String quote (repr_body quote s ++ String quote EmptyString).

End Text.

(* ================================================================= *)
(** ** Decoded JSON: what [response.json()] returns *)

(** A float is carried by its [repr] (the shortest text that reads back
    to it); the two zeros read [0.0] and [-0.0]. *)
Inductive json : Type :=
| JNull
| JBool (b : bool)
| JInt (z : Z)
| JFloat (repr : string)
| JStr (s : string)
| JList (xs : list json)
| JDict (kvs : list (string * json)).

Definition dict : Type := list (string * json).

Module Dict.

Section Lookup.
Variable V : Type.

Fixpoint lookup (d : list (string * V)) (k : string) : option V :=
  match d with
  | [] => None
  | (k', v) :: d' => if String.eqb k k' then Some v else lookup d' k
  end.

(** [d.get(k, default)] *)
Definition get (d : list (string * V)) (k : string) (default : V) : V :=
  match lookup d k with
  | Some v => v
  | None => default
  end.

(** [d[k] = v]: a present key keeps its place, a new key goes last. *)
Fixpoint set (d : list (string * V)) (k : string) (v : V) : list (string * V) :=
  match d with
  | [] => [(k, v)]
  | (k', v') :: d' =>
      if String.eqb k k' then (k', v) :: d' else (k', v') :: set d' k v
  end.

(** The dict without key [k]. *)
Definition remove (d : list (string * V)) (k : string) : list (string * V) :=
  filter (fun kv => negb (String.eqb k (fst kv))) d.
End Lookup.

End Dict.

Module Json.

(** [bool(v)] *)
Definition truthy (v : json) : bool :=
  match v with
  | JNull => false
  | JBool b => b
  | JInt z => negb (Z.eqb z 0)
  | JFloat r => negb (String.eqb r "0.0" || String.eqb r "-0.0")
  | JStr s => negb (String.eqb s "")
  | JList xs => match xs with [] => false | _ => true end
  | JDict kvs => match kvs with [] => false | _ => true end
  end.

(** [repr(v)] *)
Fixpoint repr (v : json) : string :=
  match v with
  | JNull => "None"
  | JBool true => "True"
  | JBool false => "False"
  | JInt z => Text.of_int z
  | JFloat r => r
  | JStr s => Text.repr s
  | JList xs => "[" ++ Text.join ", " (map repr xs) ++ "]"
  | JDict kvs =>
      "{" ++ Text.join ", "
               (map (fun kv => Text.repr (fst kv) ++ ": " ++ repr (snd kv)) kvs)
          ++ "}"
  end.

(** [str(v)], which is what an f-string field and [str.format] with an
    empty format spec interpolate. *)
Definition str (v : json) : string :=
  match v with
  | JStr s => s
  | _ => repr v
  end.

(** The items of a sequence of text, or [TypeError] at the first item
    that is not text. *)
Fixpoint texts (xs : list json) : outcome (list string) :=
  match xs with
  | [] => Return []
  | JStr s :: xs' => rest <- texts xs' ;; Return (s :: rest)
  | _ :: _ => Raise TypeError
  end.

(** [sep.join(v)]: [v] must be iterable and yield text only.  A list
    yields its items, text its characters, a dict its keys. *)
Definition join (sep : string) (v : json) : outcome string :=
  match v with
  | JList xs => parts <- texts xs ;; Return (Text.join sep parts)
  | JStr s => Return (Text.join sep (Text.chars s))
  | JDict kvs => Return (Text.join sep (map fst kvs))
  | JNull | JBool _ | JInt _ | JFloat _ => Raise TypeError
  end.

(** [v[:n]]: text and lists can be sliced; [None], booleans and numbers
    are not subscriptable, and a dict rejects a slice as a key
    ([TypeError] up to CPython 3.11, where a slice is unhashable). *)
Definition slice_to (n : nat) (v : json) : outcome json :=
  match v with
  | JStr s => Return (JStr (Text.slice_to n s))
  | JList xs => Return (JList (firstn n xs))
  | JNull | JBool _ | JInt _ | JFloat _ | JDict _ => Raise TypeError
  end.

End Json.

(* ================================================================= *)
(** ** [OpenLibraryAPI.format_search_result] *)

Definition COVER_URL : string := "https://covers.openlibrary.org/b/id/{}-L.jpg".

Definition format_search_result (result : dict) : outcome string :=
  let title := Dict.get result "title" (JStr "Unknown Title") in
  authors <- Json.join ", " (Dict.get result "author_name" (JList [JStr "Unknown Author"])) ;;
  let year := Dict.get result "first_publish_year" (JStr "Unknown Year") in
  publisher <- Json.join ", " (Dict.get result "publisher" (JList [JStr "Unknown Publisher"])) ;;
  isbns <- Json.join ", " (Dict.get result "isbn" (JList [JStr "Unknown ISBN"])) ;;
  let cover_id := Dict.get result "cover_i" JNull in
  let description := Dict.get result "description" (JStr "No description available") in
  let description :=
    match description with
    | JDict d => Dict.get d "value" (JStr "No description available")
    | _ => description
    end in
  shown <- Json.slice_to 200 description ;;
  let output :=
    "Title: " ++ Json.str title ++ Text.nl ++
    "Author(s): " ++ authors ++ Text.nl ++
    "First Published: " ++ Json.str year ++ Text.nl ++
    "Publisher(s): " ++ publisher ++ Text.nl ++
    "ISBN(s): " ++ isbns ++ Text.nl ++
    "Description: " ++ Json.str shown ++ "..." ++ Text.nl in
  if Json.truthy cover_id then
    Return (output ++ "Cover: " ++ Text.format1 COVER_URL (Json.str cover_id) ++ Text.nl)
  else
    Return output.

(* ================================================================= *)
(** ** Arguments of a call *)

(** The values a caller passes to [search_books]: [None], text, an
    integer, or a list or a tuple of field names. *)
Inductive argval : Type :=
| VNone
| VStr (s : string)
| VInt (z : Z)
| VList (l : list string)
| VTuple (l : list string).

Module Arg.

(** [bool(v)] *)
Definition truthy (v : argval) : bool :=
  match v with
  | VNone => false
  | VStr s => negb (String.eqb s "")
  | VInt z => negb (Z.eqb z 0)
  | VList l | VTuple l => match l with [] => false | _ => true end
  end.

(** Whether [hash(v)] succeeds: a list is unhashable. *)
Definition hashable (v : argval) : bool :=
  match v with
  | VList _ => false
  | _ => true
  end.

Fixpoint list_eqb (l1 l2 : list string) : bool :=
  match l1, l2 with
  | [], [] => true
  | x :: l1', y :: l2' => String.eqb x y && list_eqb l1' l2'
  | _, _ => false
  end.

(** [v == w] *)
Definition eqb (v w : argval) : bool :=
  match v, w with
  | VNone, VNone => true
  | VStr s, VStr t => String.eqb s t
  | VInt a, VInt b => Z.eqb a b
  | VList l, VList m => list_eqb l m
  | VTuple l, VTuple m => list_eqb l m
  | _, _ => false
  end.

(** [v.replace(" ", "+")]: only text has the method. *)
Definition replace (v : argval) (old : ascii) (new : string) : outcome argval :=
  match v with
  | VStr s => Return (VStr (Text.replace old new s))
  | _ => Raise AttributeError
  end.

(** [sep.join(v)]: a list or tuple yields its items, text its
    characters; [None] and integers are not iterable. *)
Definition join (sep : string) (v : argval) : outcome string :=
  match v with
  | VList l | VTuple l => Return (Text.join sep l)
  | VStr s => Return (Text.join sep (Text.chars s))
  | VNone | VInt _ => Raise TypeError
  end.

(** [min(v, bound)] for an integer [bound]: the bound when
    [bound < v], else [v]; only an integer can be compared with it. *)
Definition min (v : argval) (bound : Z) : outcome argval :=
  match v with
  | VInt z => Return (VInt (if Z.ltb bound z then bound else z))
  | _ => Raise TypeError
  end.

End Arg.

(** A call of [search_books]: the instance it is made on
    ([self], by identity), the positional arguments after [self], and
    the keyword arguments in the order they were written. *)
Record call : Type := mkCall {
  self : nat;
  args : list argval;
  kwds : list (string * argval)
}.

(** The parameters of [search_books] after binding. *)
Record bound : Type := mkBound {
  title : argval;
  author : argval;
  isbn : argval;
  fields : argval;
  limit : argval;
  page : argval;
  sort : argval
}.

Definition PARAMETERS : list string :=
  ["title"; "author"; "isbn"; "fields"; "limit"; "page"; "sort"].

Definition DEFAULT_FIELDS : list string :=
  ["title"; "author_name"; "first_publish_year";
   "publisher"; "isbn"; "cover_i"; "description"].

Module Binding.

Definition env : Type := list (string * argval).

(** Positional arguments fill the parameters in order; one too many is
    a [TypeError]. *)
Fixpoint positional (names : list string) (actuals : list argval) {struct actuals}
  : outcome env :=
  match actuals, names with
  | [], _ => Return []
  | a :: actuals', n :: names' =>
      rest <- positional names' actuals' ;; Return ((n, a) :: rest)
  | _ :: _, [] => Raise TypeError
  end.

Definition is_parameter (k : string) : bool :=
  existsb (String.eqb k) PARAMETERS.

Definition is_bound (e : env) (k : string) : bool :=
  match Dict.lookup e k with Some _ => true | None => false end.

(** A keyword must name a parameter that has no value yet. *)
Fixpoint keywords (e : env) (kw : list (string * argval)) : outcome env :=
  match kw with
  | [] => Return e
  | (k, v) :: kw' =>
      if negb (is_parameter k) then Raise TypeError
      else if is_bound e k then Raise TypeError
      else keywords (e ++ [(k, v)])%list kw'
  end.

(** Binding of a call's arguments to the signature of [search_books],
    with the defaults of the [def]. *)
Definition bind_args (c : call) : outcome bound :=
  e <- positional PARAMETERS (args c) ;;
  e <- keywords e (kwds c) ;;
  Return {| title := Dict.get e "title" VNone;
            author := Dict.get e "author" VNone;
            isbn := Dict.get e "isbn" VNone;
            fields := Dict.get e "fields" (VList DEFAULT_FIELDS);
            limit := Dict.get e "limit" (VInt 5);
            page := Dict.get e "page" (VInt 1);
            sort := Dict.get e "sort" VNone |}.

End Binding.

(* ================================================================= *)
(** ** The body of [search_books] up to the request *)

Definition params : Type := list (string * argval).

Definition NO_PARAMETER_MESSAGE : string :=
  "At least one search parameter (title, author, or isbn) must be provided".

(** [any([title, author, isbn])] *)
Definition any_given (b : bound) : bool :=
  existsb Arg.truthy [title b; author b; isbn b].

(** The statements of [search_books] from the check of the criteria to
    the last [params[...] = ...]. *)
Definition build_params (b : bound) : outcome params :=
  if negb (any_given b) then Raise (ValueError NO_PARAMETER_MESSAGE) else
  let params : params := [] in
  params <- (if Arg.truthy (title b)
             then v <- Arg.replace (title b) " " "+" ;; Return (Dict.set params "title" v)
             else Return params) ;;
  params <- (if Arg.truthy (author b)
             then v <- Arg.replace (author b) " " "+" ;; Return (Dict.set params "author" v)
             else Return params) ;;
  params <- (if Arg.truthy (isbn b)
             then v <- Arg.replace (isbn b) " " "+" ;; Return (Dict.set params "isbn" v)
             else Return params) ;;
  joined <- Arg.join "," (fields b) ;;
  let params := Dict.set params "fields" (VStr joined) in
  capped <- Arg.min (limit b) 100 ;;
  let params := Dict.set params "limit" capped in
  let params := Dict.set params "page" (page b) in
  let params :=
    if Arg.eqb (sort b) (VStr "new") then Dict.set params "sort" (VStr "new")
    else if Arg.eqb (sort b) (VStr "old") then Dict.set params "sort" (VStr "old")
    else if Arg.eqb (sort b) (VStr "title") then Dict.set params "sort" (VStr "title")
    else params in
  Return params.

(** The query a call stands for: its arguments bound, then [build_params]. *)
Definition descriptor (c : call) : outcome params :=
  b <- Binding.bind_args c ;; build_params b.

(* ================================================================= *)
(** ** The remote catalogue and the request *)

(** What [session.get], [raise_for_status] and [response.json] make of
    one request: the decoded body, or a [RequestException] with its
    message. *)
Inductive response : Type :=
| Body (j : json)
| Failed (msg : string).

(** What the method acts on besides the memo: the requests sent so far,
    oldest first, and the lines printed. *)
Record world : Type := mkWorld {
  sent : list params;
  stdout : list string
}.

Definition fresh_world : world := {| sent := []; stdout := [] |}.

Section Client.

(** The catalogue: the answer to the [n]-th request (counting from 0)
    with the given parameters. *)
Variable remote : nat -> params -> response.

(** The [try] block: the request is sent; a failure is printed and
    raised again. *)
Definition request (w : world) (p : params) : world * outcome json :=
  let w' := {| sent := (sent w ++ [p])%list; stdout := stdout w |} in
  match remote (length (sent w)) p with
  | Body j => (w', Return j)
  | Failed msg =>
      ({| sent := sent w'; stdout := (stdout w' ++ [("API request failed: " ++ msg)%string])%list |},
       Raise (RequestException msg))
  end.

(** The undecorated method. *)
Definition search_books_body (w : world) (c : call) : world * outcome json :=
  match descriptor c with
  | Raise e => (w, Raise e)
  | Return p => request w p
  end.

End Client.

(* ================================================================= *)
(** ** [functools.lru_cache] with a positive [maxsize] *)

Module Key.

Fixpoint args_eqb (l1 l2 : list argval) : bool :=
  match l1, l2 with
  | [], [] => true
  | x :: l1', y :: l2' => Arg.eqb x y && args_eqb l1' l2'
  | _, _ => false
  end.

Fixpoint kwds_eqb (l1 l2 : list (string * argval)) : bool :=
  match l1, l2 with
  | [], [] => true
  | (k1, v1) :: l1', (k2, v2) :: l2' =>
      String.eqb k1 k2 && Arg.eqb v1 v2 && kwds_eqb l1' l2'
  | _, _ => false
  end.

(** Equality of the keys of two calls.  The key of a call is the flat
    tuple of [self], the positional arguments, a marker, and the
    keyword names and values in the order written, so two keys are
    equal exactly when the three parts are. *)
Definition eqb (c1 c2 : call) : bool :=
  Nat.eqb (self c1) (self c2) && args_eqb (args c1) (args c2)
  && kwds_eqb (kwds c1) (kwds c2).

(** Building the key hashes every argument. *)
Definition make_key (c : call) : outcome call :=
  if forallb Arg.hashable (args c)
     && forallb (fun kv => Arg.hashable (snd kv)) (kwds c)
  then Return c
  else Raise TypeError.

End Key.

(** The memo in order of use, least recently used first, with the
    counters [cache_info] reports, and the world the wrapped function
    acts on. *)
Record state : Type := mkState {
  cache : list (call * json);
  hits : nat;
  misses : nat;
  outside : world
}.

Definition initial : state :=
  {| cache := []; hits := 0; misses := 0; outside := fresh_world |}.

Module Lru.

Fixpoint cache_get (m : list (call * json)) (key : call) : option json :=
  match m with
  | [] => None
  | (k, v) :: m' => if Key.eqb key k then Some v else cache_get m' key
  end.

Definition unlink (m : list (call * json)) (key : call) : list (call * json) :=
  filter (fun kv => negb (Key.eqb key (fst kv))) m.

Section Wrapper.

Variable maxsize : nat.
Variable user_function : world -> call -> world * outcome json.

(** The wrapper [lru_cache(maxsize)] puts around [user_function].
    On a hit the entry moves to the most recently used end.  On a
    miss the function runs; what it raises passes through and
    nothing is stored; what it returns is stored, in place of the
    least recently used entry when the memo is full.  (The
    wrapper's test that the key appeared in the memo while the
    function ran never holds here: the function does not call the
    wrapper.) *)
Definition wrapper (st : state) (c : call) : state * outcome json :=
  match Key.make_key c with
  | Raise e => (st, Raise e)
  | Return key =>
      match cache_get (cache st) key with
      | Some result =>
          ({| cache := (unlink (cache st) key ++ [(key, result)])%list;
              hits := S (hits st);
              misses := misses st;
              outside := outside st |},
           Return result)
      | None =>
          match user_function (outside st) c with
          | (w, Raise e) =>
              ({| cache := cache st; hits := hits st;
                  misses := S (misses st); outside := w |},
               Raise e)
          | (w, Return result) =>
              let full := (maxsize <=? length (cache st))%nat in
              ({| cache := if full
                           then (tl (cache st) ++ [(key, result)])%list
                           else (cache st ++ [(key, result)])%list;
                  hits := hits st;
                  misses := S (misses st);
                  outside := w |},
               Return result)
          end
      end
  end.

End Wrapper.

End Lru.

(* ================================================================= *)
(** ** [OpenLibraryAPI.search_books] *)

Definition MAXSIZE : nat := 100.

Section Search.

Variable remote : nat -> params -> response.

(** The method as decorated: [@lru_cache(maxsize=100)]. *)
Definition search_books : state -> call -> state * outcome json :=
  Lru.wrapper MAXSIZE (search_books_body remote).

(** A session: the calls made one after the other. *)
Definition run (st : state) (cs : list call) : state :=
  fold_left (fun st c => fst (search_books st c)) cs st.

(** The number of requests sent to the catalogue so far. *)
Definition remote_calls (st : state) : nat := length (sent (outside st)).

(** Every entry of the memo is the body of a request that was sent for
    the query of its key and answered without failure. *)
Definition memo_sound (st : state) : Prop :=
  forall k v, In (k, v) (cache st) ->
    exists n p, descriptor k = Return p /\
                nth_error (sent (outside st)) n = Some p /\
                remote n p = Body v.

(** Every call of the session returns. *)
Fixpoint all_return (st : state) (cs : list call) : bool :=
  match cs with
  | [] => true
  | c :: cs' =>
      match search_books st c with
      | (st', Return _) => all_return st' cs'
      | (_, Raise _) => false
      end
  end.

End Search.

(* ================================================================= *)
(** * Vocabulary of the properties *)

Definition keys (st : state) : list call := map fst (cache st).

(** [m] raises nothing but exceptions in [P]. *)
Definition raises_only (P : exn -> Prop) (A : Type) (m : outcome A) : Prop :=
  forall e, m = Raise e -> P e.

Definition not_value_error (e : exn) : Prop := forall msg, e <> ValueError msg.

Definition not_request_exception (e : exn) : Prop :=
  forall msg, e <> RequestException msg.

Module Typed.

Definition text_or_none (v : argval) : bool :=
  match v with VNone | VStr _ => true | _ => false end.

Definition names (v : argval) : bool :=
  match v with VList _ | VTuple _ => true | _ => false end.

Definition int (v : argval) : bool :=
  match v with VInt _ => true | _ => false end.

(** The criteria have the types the signature annotates (a tuple of
    names is taken for a list of names). *)
Definition well_typed (b : bound) : bool :=
  text_or_none (title b) && text_or_none (author b) && text_or_none (isbn b)
  && names (fields b) && int (limit b) && int (page b) && text_or_none (sort b).

(** The entry of a text criterion in the query: none when the
    criterion is [None] or empty, else the text with [+] for each
    space. *)
Definition entry (v : argval) : option argval :=
  match v with
  | VStr s => if String.eqb s "" then None else Some (VStr (Text.replace " " "+" s))
  | _ => None
  end.

Definition items (v : argval) : list string :=
  match v with VList l | VTuple l => l | _ => [] end.

Definition number (v : argval) : Z :=
  match v with VInt z => z | _ => 0%Z end.

End Typed.

Definition plus_for_space (c : ascii) : ascii :=
  if Ascii.eqb c " " then "+"%char else c.

(** The three text criteria, by the name of their entry in the query. *)
Definition TEXT_CRITERIA : list (string * (bound -> argval)) :=
  [("title", title); ("author", author); ("isbn", isbn)].

(** The first five lines of the summary. *)
Definition heading (result : dict) : outcome string :=
  authors <- Json.join ", " (Dict.get result "author_name" (JList [JStr "Unknown Author"])) ;;
  publisher <- Json.join ", " (Dict.get result "publisher" (JList [JStr "Unknown Publisher"])) ;;
  isbns <- Json.join ", " (Dict.get result "isbn" (JList [JStr "Unknown ISBN"])) ;;
  Return ("Title: " ++ Json.str (Dict.get result "title" (JStr "Unknown Title")) ++ Text.nl ++
          "Author(s): " ++ authors ++ Text.nl ++
          "First Published: " ++
            Json.str (Dict.get result "first_publish_year" (JStr "Unknown Year")) ++ Text.nl ++
          "Publisher(s): " ++ publisher ++ Text.nl ++
          "ISBN(s): " ++ isbns ++ Text.nl).

(** The value whose first 200 items the description line shows. *)
Definition description_value (result : dict) : json :=
  let description := Dict.get result "description" (JStr "No description available") in
  match description with
  | JDict d => Dict.get d "value" (JStr "No description available")
  | _ => description
  end.

(** The line of the cover, empty when there is none. *)
Definition cover_line (result : dict) : string :=
  if Json.truthy (Dict.get result "cover_i" JNull)
  then "Cover: " ++ Text.format1 COVER_URL (Json.str (Dict.get result "cover_i" JNull))
       ++ Text.nl
  else "".

(** The text a record's description stands for: the default when the
    key is absent, the value when it is text, and for an object the text
    under [value], or the default when the object has no such key. *)
Inductive description_source (result : dict) : string -> Prop :=
| source_absent :
    Dict.lookup result "description" = None ->
    description_source result "No description available"
| source_plain (s : string) :
    Dict.lookup result "description" = Some (JStr s) ->
    description_source result s
| source_structured (d : dict) (s : string) :
    Dict.lookup result "description" = Some (JDict d) ->
    Dict.lookup d "value" = Some (JStr s) ->
    description_source result s
| source_structured_default (d : dict) :
    Dict.lookup result "description" = Some (JDict d) ->
    Dict.lookup d "value" = None ->
    description_source result "No description available".

Module Shape.

Definition is_text (v : json) : bool :=
  match v with JStr _ => true | _ => false end.

(** A list of text. *)
Definition text_list (v : json) : bool :=
  match v with JList xs => forallb is_text xs | _ => false end.

(** Text, or an object whose [value], when it has one, is text. *)
Definition description (v : json) : bool :=
  match v with
  | JStr _ => true
  | JDict d =>
      match Dict.lookup d "value" with
      | None | Some (JStr _) => true
      | Some _ => false
      end
  | _ => false
  end.

Definition when_present (check : json -> bool) (result : dict) (k : string) : bool :=
  match Dict.lookup result k with
  | None => true
  | Some v => check v
  end.

(** The fields that are joined or sliced have, when present, the
    shape the catalogue documents. *)
Definition well_shaped (result : dict) : bool :=
  when_present text_list result "author_name"
  && when_present text_list result "publisher"
  && when_present text_list result "isbn"
  && when_present description result "description".

End Shape.

(** The default of each field that has one, as a value of the record. *)
Definition DEFAULTS : dict :=
  [("title", JStr "Unknown Title");
   ("author_name", JList [JStr "Unknown Author"]);
   ("first_publish_year", JStr "Unknown Year");
   ("publisher", JList [JStr "Unknown Publisher"]);
   ("isbn", JList [JStr "Unknown ISBN"]);
   ("description", JStr "No description available")].

Definition ALL_DEFAULTS : string :=
  "Title: Unknown Title" ++ Text.nl ++
  "Author(s): Unknown Author" ++ Text.nl ++
  "First Published: Unknown Year" ++ Text.nl ++
  "Publisher(s): Unknown Publisher" ++ Text.nl ++
  "ISBN(s): Unknown ISBN" ++ Text.nl ++
  "Description: No description available..." ++ Text.nl.

(** The text the summary shows for a field: the value as it is when
    the key is present, whether or not it is empty, and the default
    only when the key is absent. *)
Definition shown_as (result : dict) (k : string) (present : json -> string)
    (default : string) : string :=
  match Dict.lookup result k with
  | Some v => present v
  | None => default
  end.

(** A list of text on one line, the items separated by a comma and a
    space. *)
Definition listed (v : json) : string :=
  match v with
  | JList xs =>
      Text.join ", " (map (fun x => match x with JStr s => s | _ => "" end) xs)
  | _ => ""
  end.

(** The text of a description that is present: itself when it is text,
    and for an object the text under [value], or the default when the
    object has no such key. *)
Definition described (v : json) : string :=
  match v with
  | JStr s => s
  | JDict d =>
      match Dict.lookup d "value" with
      | Some (JStr s) => s
      | _ => "No description available"
      end
  | _ => ""
  end.

(** The line of the cover, read off the record: present for a truthy
    identifier only. *)
Definition cover_text (result : dict) : string :=
  match Dict.lookup result "cover_i" with
  | Some v =>
      if Json.truthy v
      then "Cover: https://covers.openlibrary.org/b/id/" ++ Json.str v ++ "-L.jpg"
           ++ Text.nl
      else ""
  | None => ""
  end.

(** Using a call: it becomes the most recently used one. *)
Definition touch (c : call) (used : list call) : list call :=
  (filter (fun k => negb (Key.eqb c k)) used ++ [c])%list.

(** The distinct calls of a session, ordered by their last use, the
    least recently used first. *)
Definition recency (cs : list call) : list call :=
  fold_left (fun used c => touch c used) cs [].

(** The [n] last items of a list, all of them when it has fewer. *)
Definition most_recent (n : nat) (used : list call) : list call :=
  skipn (length used - n) used.

(* ================================================================= *)
(** ** Sample catalogues, calls and records *)

(** A catalogue that answers every request with an empty result set. *)
Definition no_match : nat -> params -> response :=
  fun _ _ => Body (JDict [("numFound", JInt 0); ("docs", JList [])]).

(** A catalogue that fails on the first request and answers afterwards. *)
Definition flaky : nat -> params -> response :=
  fun n p => if (n =? 0)%nat then Failed "timed out" else no_match n p.

Definition by_title (t : string) : call :=
  {| self := 0; args := []; kwds := [("title", VStr t)] |}.

Definition hobbit : call := by_title "The Hobbit".

Definition nothing_given : call :=
  {| self := 0; args := []; kwds := [("title", VStr ""); ("author", VNone)] |}.

Definition two_fields : call :=
  {| self := 0; args := [];
     kwds := [("title", VStr "dune"); ("fields", VList ["title"; "author_name"])] |}.

(** The [n]-th page of one search. *)
Definition page_of (n : nat) : call :=
  {| self := 0; args := [];
     kwds := [("title", VStr "dune"); ("page", VInt (Z.of_nat n))] |}.

Definition with_limit (z : Z) : bound :=
  {| title := VStr "dune"; author := VNone; isbn := VNone;
     fields := VList DEFAULT_FIELDS; limit := VInt z; page := VInt 1;
     sort := VNone |}.

Definition by_author (a : string) : bound :=
  {| title := VNone; author := VStr a; isbn := VNone;
     fields := VList DEFAULT_FIELDS; limit := VInt 5; page := VInt 1;
     sort := VNone |}.

Definition dune_without_cover : dict :=
  [("title", JStr "Dune"); ("cover_i", JInt 0); ("author_name", JList [JStr "Frank Herbert"])].

Definition short_description : dict :=
  [("title", JStr "Dune");
   ("description", JDict [("type", JStr "/type/text"); ("value", JStr "A desert planet.")])].

(* ================================================================= *)
(** ** Vocabulary of the further properties *)

(** The statements of [build_params] before the one on the sort. *)
Definition before_sort (b : bound) : outcome params :=
  if negb (any_given b) then Raise (ValueError NO_PARAMETER_MESSAGE) else
  let params : params := [] in
  params <- (if Arg.truthy (title b)
             then v <- Arg.replace (title b) " " "+" ;; Return (Dict.set params "title" v)
             else Return params) ;;
  params <- (if Arg.truthy (author b)
             then v <- Arg.replace (author b) " " "+" ;; Return (Dict.set params "author" v)
             else Return params) ;;
  params <- (if Arg.truthy (isbn b)
             then v <- Arg.replace (isbn b) " " "+" ;; Return (Dict.set params "isbn" v)
             else Return params) ;;
  joined <- Arg.join "," (fields b) ;;
  let params := Dict.set params "fields" (VStr joined) in
  capped <- Arg.min (limit b) 100 ;;
  let params := Dict.set params "limit" capped in
  let params := Dict.set params "page" (page b) in
  Return params.

(** The statement of [build_params] on the sort. *)
Definition sort_statement (sort : argval) (ps : params) : params :=
  if Arg.eqb sort (VStr "new") then Dict.set ps "sort" (VStr "new")
  else if Arg.eqb sort (VStr "old") then Dict.set ps "sort" (VStr "old")
  else if Arg.eqb sort (VStr "title") then Dict.set ps "sort" (VStr "title")
  else ps.

(** The sort is one of the three the catalogue knows. *)
Definition recognised_sort (v : argval) : bool :=
  Arg.eqb v (VStr "new") || Arg.eqb v (VStr "old") || Arg.eqb v (VStr "title").

(** The criteria [b] with another sort. *)
Definition with_sort (b : bound) (v : argval) : bound :=
  {| title := title b; author := author b; isbn := isbn b; fields := fields b;
     limit := limit b; page := page b; sort := v |}.

(** What the query holds for a criterion: nothing when the criterion is
    falsy, else the criterion, which is text, with [+] for each space. *)
Definition criterion_entry (v : argval) (entry : option argval) : Prop :=
  if Arg.truthy v
  then exists s, v = VStr s /\ entry = Some (VStr (Text.replace " " "+" s))
  else entry = None.

(** The query names a title, an author or an ISBN. *)
Definition identified (p : params) : bool :=
  existsb (fun k => match Dict.lookup p k with Some _ => true | None => false end)
          ["title"; "author"; "isbn"].

(** Whether the key of a call can be built. *)
Definition hashable_call (c : call) : bool :=
  forallb Arg.hashable (args c) && forallb (fun kv => Arg.hashable (snd kv)) (kwds c).

(** The five ways a call of [search_books] can go, each with the state
    it leaves and what it returns or raises. *)
Inductive step (remote : nat -> params -> response) (st : state) (c : call)
  : state * outcome json -> Prop :=
| step_unhashable :
    hashable_call c = false ->
    step remote st c (st, Raise TypeError)
| step_hit (v : json) :
    hashable_call c = true ->
    Lru.cache_get (cache st) c = Some v ->
    step remote st c
      ({| cache := (Lru.unlink (cache st) c ++ [(c, v)])%list;
          hits := S (hits st); misses := misses st; outside := outside st |},
       Return v)
| step_rejected (e : exn) :
    hashable_call c = true ->
    Lru.cache_get (cache st) c = None ->
    descriptor c = Raise e ->
    step remote st c
      ({| cache := cache st; hits := hits st; misses := S (misses st);
          outside := outside st |},
       Raise e)
| step_answered (p : params) (j : json) :
    hashable_call c = true ->
    Lru.cache_get (cache st) c = None ->
    descriptor c = Return p ->
    remote (length (sent (outside st))) p = Body j ->
    step remote st c
      ({| cache := if (MAXSIZE <=? length (cache st))%nat
                   then (tl (cache st) ++ [(c, j)])%list
                   else (cache st ++ [(c, j)])%list;
          hits := hits st; misses := S (misses st);
          outside := {| sent := (sent (outside st) ++ [p])%list;
                        stdout := stdout (outside st) |} |},
       Return j)
| step_failed (p : params) (msg : string) :
    hashable_call c = true ->
    Lru.cache_get (cache st) c = None ->
    descriptor c = Return p ->
    remote (length (sent (outside st))) p = Failed msg ->
    step remote st c
      ({| cache := cache st; hits := hits st; misses := S (misses st);
          outside := {| sent := (sent (outside st) ++ [p])%list;
                        stdout := (stdout (outside st)
                                   ++ [("API request failed: " ++ msg)%string])%list |} |},
       Raise (RequestException msg)).

(** The keywords [kw] can be bound after the bindings [e]: each names a
    parameter that [e] leaves free, and none comes twice. *)
Definition acceptable (e : Binding.env) (kw : list (string * argval)) : Prop :=
  (forall k v, In (k, v) kw ->
     Binding.is_parameter k = true /\ Dict.lookup e k = None) /\
  NoDup (map fst kw).

(** What [sep.join] accepts: a list of text, a text, or an object. *)
Definition joinable (v : json) : bool :=
  match v with
  | JList xs => forallb Shape.is_text xs
  | JStr _ | JDict _ => true
  | JNull | JBool _ | JInt _ | JFloat _ => false
  end.

(** What [v[:200]] accepts: a text or a list. *)
Definition sliceable (v : json) : bool :=
  match v with
  | JStr _ | JList _ => true
  | JNull | JBool _ | JInt _ | JFloat _ | JDict _ => false
  end.

(** The record can be formatted. *)
Definition formattable (result : dict) : bool :=
  joinable (Dict.get result "author_name" (JList [JStr "Unknown Author"]))
  && joinable (Dict.get result "publisher" (JList [JStr "Unknown Publisher"]))
  && joinable (Dict.get result "isbn" (JList [JStr "Unknown ISBN"]))
  && sliceable (description_value result).

(* ================================================================= *)
(** * The interactive menu: [display_menu] and [main] *)

(** ** Text typed at the prompt *)

Module Typed_text.

(** [c.isspace()] for a character in the range of the model. *)
Definition isspace (c : ascii) : bool :=
  let n := nat_of_ascii c in
  ((9 <=? n) && (n <=? 13) || (28 <=? n) && (n <=? 32)
   || (n =? 133) || (n =? 160))%nat.

Fixpoint lstrip (s : string) : string :=
  match s with
  | EmptyString => EmptyString
  | String c s' => if isspace c then lstrip s' else s
  end.

Fixpoint rstrip (s : string) : string :=
  match s with
  | EmptyString => EmptyString
  | String c s' =>
      let r := rstrip s' in
      if isspace c && String.eqb r "" then EmptyString else String c r
  end.

(** [s.strip()]: the text without the white space at its two ends. *)
Definition strip (s : string) : string := rstrip (lstrip s).

Definition lower_char (c : ascii) : ascii :=
  let n := nat_of_ascii c in
  if ((65 <=? n) && (n <=? 90)
      || (192 <=? n) && (n <=? 222) && negb (n =? 215))%nat
  then ascii_of_nat (n + 32)
  else c.

(** [s.lower()] *)
Fixpoint lower (s : string) : string :=
  match s with
  | EmptyString => EmptyString
  | String c s' => String (lower_char c) (lower s')
  end.

(** The digits [0] to [9]. *)
Definition decimal (c : ascii) : bool :=
  let n := nat_of_ascii c in ((48 <=? n) && (n <=? 57))%nat.

(** [c.isdigit()]: the digits [0] to [9] and the superscripts one, two
    and three. *)
Definition isdigit_char (c : ascii) : bool :=
  let n := nat_of_ascii c in
  decimal c || ((n =? 178) || (n =? 179) || (n =? 185))%nat.

Fixpoint all_chars (f : ascii -> bool) (s : string) : bool :=
  match s with
  | EmptyString => true
  | String c s' => f c && all_chars f s'
  end.

(** [s.isdigit()]: at least one character, and digits only. *)
Definition isdigit (s : string) : bool :=
  negb (String.eqb s "") && all_chars isdigit_char s.

(** The number of digits [0] to [9] the text starts with. *)
Fixpoint leading_decimals (s : string) : nat :=
  match s with
  | String c s' => if decimal c then S (leading_decimals s') else 0
  | EmptyString => 0
  end.

(** The number a text of digits [0] to [9] writes, after the digits
    already read as [acc]. *)
Fixpoint decimal_value (acc : Z) (s : string) : Z :=
  match s with
  | EmptyString => acc
  | String c s' => decimal_value (10 * acc + Z.of_nat (nat_of_ascii c - 48)) s'
  end.

Section Int.

(** The interpreter's bound on the digits of a text turned into an
    integer, 0 when there is none, and the message of the error for a
    text with that many digits. *)
Variable int_max_str_digits : nat.
Variable limit_message : nat -> string.

(** [int(s)] for a text [s] of digits ([s.isdigit()]).  The digits [0]
    to [9] at the start are counted and checked against the bound; a
    text that holds anything else is no literal. *)
Definition to_int (s : string) : outcome Z :=
  let digits := leading_decimals s in
  if ((640 <? digits) && (0 <? int_max_str_digits) && (int_max_str_digits <? digits))%nat
  then Raise (ValueError (limit_message digits))
  else if negb (String.eqb s "") && all_chars decimal s
  then Return (decimal_value 0 s)
  else Raise (ValueError ("invalid literal for int() with base 10: " ++ Text.repr s)).

End Int.

End Typed_text.

(** ** The console *)

(** The client's state and the lines still to be read from the
    keyboard. *)
Record console : Type := mkConsole {
  client : state;
  stdin : list string
}.

(** How a statement of [main] ends when it does not complete: with an
    exception of the client, or with the [EOFError] of [input] at the
    end of the input. *)
Inductive abort : Type :=
| Uncaught (e : exn)
| EOFError.

Definition io (A : Type) : Type := console -> console * (A + abort).

Definition ret {A : Type} (a : A) : io A := fun s => (s, inl a).

Definition io_bind {A B : Type} (m : io A) (k : A -> io B) : io B :=
  fun s =>
    match m s with
    | (s', inl a) => k a s'
    | (s', inr stop) => (s', inr stop)
    end.

Notation "x <~ m ;; k" := (io_bind m (fun x => k))
  (at level 61, m at next level, right associativity).
Notation "m ;;; k" := (io_bind m (fun _ => k))
  (at level 61, right associativity).

(** The state with one more entry written to the standard output. *)
Definition write (st : state) (text : string) : state :=
  {| cache := cache st; hits := hits st; misses := misses st;
     outside := {| sent := sent (outside st);
                   stdout := (stdout (outside st) ++ [text])%list |} |}.

(** [print(line)]: the entry written is the line, without the line feed
    that ends it. *)
Definition print (line : string) : io unit :=
  fun s => ({| client := write (client s) line; stdin := stdin s |}, inl tt).

(** [input(prompt)]: the prompt is written, as an entry of its own, and
    the next line is read; at the end of the input it raises
    [EOFError]. *)
Definition input (prompt : string) : io string :=
  fun s =>
    let st := write (client s) prompt in
    match stdin s with
    | [] => ({| client := st; stdin := [] |}, inr EOFError)
    | line :: rest => ({| client := st; stdin := rest |}, inl line)
    end.

(** An expression that may raise. *)
Definition lift {A : Type} (m : outcome A) : io A :=
  fun s =>
    match m with
    | Return a => (s, inl a)
    | Raise e => (s, inr (Uncaught e))
    end.

(** ** [display_menu] *)

Definition display_menu : io string :=
  print (Text.nl ++ "Open Library Book Search") ;;;
  print "1. Search by Title" ;;;
  print "2. Search by Author" ;;;
  print "3. Search by ISBN" ;;;
  print "4. Advanced Search" ;;;
  print "5. Exit" ;;;
  input "Enter your choice (1-5): ".

(** ** [main] *)

(** How a turn of the loop goes on: to the next turn ([continue], or the
    end of the body), or out of the loop ([break]). *)
Inductive flow : Type :=
| Next
| Break.

(** [results.get("docs", [])]: only an object has the method. *)
Definition docs_of (results : json) : outcome json :=
  match results with
  | JDict d => Return (Dict.get d "docs" (JList []))
  | _ => Raise AttributeError
  end.

(** What [enumerate] iterates over: the items of a list, the characters
    of a text, the keys of an object; nothing else is iterable. *)
Definition items_of (v : json) : outcome (list json) :=
  match v with
  | JList xs => Return xs
  | JStr s => Return (map JStr (Text.chars s))
  | JDict d => Return (map (fun kv => JStr (fst kv)) d)
  | JNull | JBool _ | JInt _ | JFloat _ => Raise TypeError
  end.

(** [api.format_search_result(book)]: the formatter calls [book.get],
    which only an object has. *)
Definition format_book (book : json) : outcome string :=
  match book with
  | JDict d => format_search_result d
  | _ => Raise AttributeError
  end.

(** The body of the [for] loop, for the books from number [i] on. *)
Fixpoint show_books (i : Z) (books : list json) : io unit :=
  match books with
  | [] => ret tt
  | book :: rest =>
      print (Text.nl ++ "Result #" ++ Text.of_int i ++ ":") ;;;
      summary <~ lift (format_book book) ;;
      print summary ;;;
      show_books (i + 1) rest
  end.

(** The end of the loop's body, after a search. *)
Definition show_results (results : json) : io unit :=
  print (Text.nl ++ "Search Results:") ;;;
  docs <~ lift (docs_of results) ;;
  books <~ lift (items_of docs) ;;
  show_books 1 books ;;;
  _ <~ input (Text.nl ++ "Press Enter to continue...") ;;
  ret tt.

(** [sort = input(...).strip().lower()], then the sort itself when it is
    one of the three, else [None]. *)
Definition sort_choice (line : string) : argval :=
  let sort := Typed_text.lower (Typed_text.strip line) in
  if existsb (String.eqb sort) ["new"; "old"; "title"] then VStr sort else VNone.

(** [input(...).strip() or None] *)
Definition optional (line : string) : argval :=
  let text := Typed_text.strip line in
  if String.eqb text "" then VNone else VStr text.

Section Menu.

Variable remote : nat -> params -> response.
Variable int_max_str_digits : nat.
Variable limit_message : nat -> string.

(** The instance [main] creates. *)
Variable api : nat.

(** A call of [api.search_books] with keyword arguments only. *)
Definition search (kwds : list (string * argval)) : io json :=
  fun s =>
    match search_books remote (client s) {| self := api; args := []; kwds := kwds |} with
    | (st, Return results) => ({| client := st; stdin := stdin s |}, inl results)
    | (st, Raise e) => ({| client := st; stdin := stdin s |}, inr (Uncaught e))
    end.

(** The body of the loop after the menu: what is done for a choice. *)
Definition dispatch (choice : string) : io flow :=
  if String.eqb choice "1" then
    line <~ input "Enter book title: " ;;
    let title := Typed_text.strip line in
    if String.eqb title "" then
      print "Title cannot be empty" ;;; ret Next
    else
      line <~ input "Sort by (new/old/title/none): " ;;
      let sort := sort_choice line in
      results <~ search [("title", VStr title); ("sort", sort)] ;;
      show_results results ;;; ret Next
  else if String.eqb choice "2" then
    line <~ input "Enter author name: " ;;
    let author := Typed_text.strip line in
    if String.eqb author "" then
      print "Author cannot be empty" ;;; ret Next
    else
      results <~ search [("author", VStr author)] ;;
      show_results results ;;; ret Next
  else if String.eqb choice "3" then
    line <~ input "Enter ISBN: " ;;
    let isbn := Typed_text.strip line in
    if String.eqb isbn "" then
      print "ISBN cannot be empty" ;;; ret Next
    else
      results <~ search [("isbn", VStr isbn)] ;;
      show_results results ;;; ret Next
  else if String.eqb choice "4" then
    line <~ input "Enter title (optional): " ;;
    let title := optional line in
    line <~ input "Enter author (optional): " ;;
    let author := optional line in
    line <~ input "Enter ISBN (optional): " ;;
    let isbn := optional line in
    line <~ input "Max results (default 5): " ;;
    let limit := Typed_text.strip line in
    limit <~ (if Typed_text.isdigit limit
              then lift (Typed_text.to_int int_max_str_digits limit_message limit)
              else ret 5%Z) ;;
    line <~ input "Sort by (new/old/title/none): " ;;
    let sort := sort_choice line in
    if negb (existsb Arg.truthy [title; author; isbn]) then
      print "At least one search parameter is required" ;;; ret Next
    else
      results <~ search [("title", title); ("author", author); ("isbn", isbn);
                         ("limit", VInt limit); ("sort", sort)] ;;
      show_results results ;;; ret Next
  else if String.eqb choice "5" then
    print "Goodbye!" ;;; ret Break
  else
    print "Invalid choice, please try again" ;;; ret Next.

(** One turn of the [while True] loop. *)
Definition turn : io flow :=
  choice <~ display_menu ;;
  dispatch choice.

(** How a run of [main] ends: it returns after [break], an exception
    leaves it, or the turns allowed are used up. *)
Inductive ending : Type :=
| Returned
| Aborted (stop : abort)
| OutOfTurns.

(** The loop, for at most [turns] turns. *)
Fixpoint main_loop (turns : nat) (s : console) : console * ending :=
  match turns with
  | 0 => (s, OutOfTurns)
  | S turns' =>
      match turn s with
      | (s', inl Next) => main_loop turns' s'
      | (s', inl Break) => (s', Returned)
      | (s', inr stop) => (s', Aborted stop)
      end
  end.

(** [main()], started in the state [st] of the client with the lines
    [lines] to read.  A turn that goes on to the next has read a line,
    so one turn more than there are lines is enough. *)
Definition main (st : state) (lines : list string) : console * ending :=
  main_loop (S (length lines)) {| client := st; stdin := lines |}.

End Menu.

(** ** Vocabulary of the properties of the menu *)

(** The keyword arguments with which [main] calls [search_books]: a
    title, author or ISBN that is not empty; or, from the advanced
    search, the three of them, one at least given, with a limit that is
    not negative. *)
Inductive menu_call : list (string * argval) -> Prop :=
| call_by_title (title line : string) :
    title <> "" ->
    menu_call [("title", VStr title); ("sort", sort_choice line)]
| call_by_author (author : string) :
    author <> "" ->
    menu_call [("author", VStr author)]
| call_by_isbn (isbn : string) :
    isbn <> "" ->
    menu_call [("isbn", VStr isbn)]
| call_advanced (title author isbn line : string) (limit : Z) :
    existsb Arg.truthy [optional title; optional author; optional isbn] = true ->
    (0 <= limit)%Z ->
    menu_call [("title", optional title); ("author", optional author);
               ("isbn", optional isbn); ("limit", VInt limit);
               ("sort", sort_choice line)].

(** A request of the kind the menu sends: the first page, the seven
    default fields, and a limit from 0 to 100. *)
Definition menu_request (p : params) : Prop :=
  Dict.lookup p "page" = Some (VInt 1) /\
  Dict.lookup p "fields" = Some (VStr (Text.join "," DEFAULT_FIELDS)) /\
  exists z, Dict.lookup p "limit" = Some (VInt z) /\ (0 <= z <= 100)%Z.

(** A book the menu can show: an object that can be formatted. *)
Definition showable_book (book : json) : bool :=
  match book with
  | JDict d => formattable d
  | _ => false
  end.

(** An answer the menu can show: an object whose [docs], when it has
    any, is a list of books that can be shown. *)
Definition showable (results : json) : bool :=
  match results with
  | JDict d =>
      match Dict.get d "docs" (JList []) with
      | JList books => forallb showable_book books
      | _ => false
      end
  | _ => false
  end.

(** A line that [int] accepts when [str.isdigit] does: typed as a limit,
    it does not make the conversion raise. *)
Definition good_line (int_max_str_digits : nat) (limit_message : nat -> string)
    (line : string) : Prop :=
  Typed_text.isdigit (Typed_text.strip line) = true ->
  exists z, Typed_text.to_int int_max_str_digits limit_message (Typed_text.strip line)
            = Return z.

(** The memo holds answers that can be shown, and the lines to read are
    good. *)
Definition good (int_max_str_digits : nat) (limit_message : nat -> string)
    (s : console) : Prop :=
  (forall k v, In (k, v) (cache (client s)) -> showable v = true) /\
  Forall (good_line int_max_str_digits limit_message) (stdin s).

(** A catalogue that answers every request with one book. *)
Definition one_book : nat -> params -> response :=
  fun _ _ =>
    Body (JDict [("numFound", JInt 1);
                 ("docs", JList [JDict [("title", JStr "Dune");
                                        ("author_name", JList [JStr "Frank Herbert"]);
                                        ("first_publish_year", JInt 1965);
                                        ("cover_i", JInt 42)]])]).

(** A session at the menu: a search by title, an advanced search with a
    limit, and the exit. *)
Definition two_searches : list string :=
  ["1"; " Dune "; "NEW"; "";
   "4"; ""; "Frank Herbert"; ""; "250"; "none"; "";
   "5"].

(* ================================================================= *)
(** * Properties *)

(** ** Keys *)

Lemma list_eqb_eq (l1 l2 : list string) : Arg.list_eqb l1 l2 = true <-> l1 = l2.
Proof.
  revert l2; induction l1 as [|x l1 IH]; intros [|y l2]; simpl;
    try (split; (discriminate || reflexivity)).
  rewrite andb_true_iff, String.eqb_eq, IH.
  split; [intros [-> ->]; reflexivity | intros [= -> ->]; auto].
Qed.

Lemma arg_eqb_eq (v w : argval) : Arg.eqb v w = true <-> v = w.
Proof.
  destruct v, w; simpl; try (split; (discriminate || reflexivity)).
  - rewrite String.eqb_eq. split; [intros -> | intros [= ->]]; reflexivity.
  - rewrite Z.eqb_eq. split; [intros -> | intros [= ->]]; reflexivity.
  - rewrite list_eqb_eq. split; [intros -> | intros [= ->]]; reflexivity.
  - rewrite list_eqb_eq. split; [intros -> | intros [= ->]]; reflexivity.
Qed.

Lemma args_eqb_eq (l1 l2 : list argval) : Key.args_eqb l1 l2 = true <-> l1 = l2.
Proof.
  revert l2; induction l1 as [|x l1 IH]; intros [|y l2]; simpl;
    try (split; (discriminate || reflexivity)).
  rewrite andb_true_iff, arg_eqb_eq, IH.
  split; [intros [-> ->]; reflexivity | intros [= -> ->]; auto].
Qed.

Lemma kwds_eqb_eq (l1 l2 : list (string * argval)) :
  Key.kwds_eqb l1 l2 = true <-> l1 = l2.
Proof.
  revert l2; induction l1 as [|[k1 v1] l1 IH]; intros [|[k2 v2] l2]; simpl;
    try (split; (discriminate || reflexivity)).
  rewrite !andb_true_iff, String.eqb_eq, arg_eqb_eq, IH.
  split; [intros [[-> ->] ->]; reflexivity | intros [= -> -> ->]; auto].
Qed.

Lemma key_eqb_eq (c1 c2 : call) : Key.eqb c1 c2 = true <-> c1 = c2.
Proof.
  destruct c1 as [s1 a1 k1], c2 as [s2 a2 k2]; unfold Key.eqb; simpl.
  rewrite !andb_true_iff, Nat.eqb_eq, args_eqb_eq, kwds_eqb_eq.
  split; [intros [[-> ->] ->]; reflexivity | intros [= -> -> ->]; auto].
Qed.

Lemma key_eqb_refl (c : call) : Key.eqb c c = true.
Proof. apply key_eqb_eq; reflexivity. Qed.

Lemma key_eqb_neq (c1 c2 : call) : Key.eqb c1 c2 = false <-> c1 <> c2.
Proof.
  rewrite <- key_eqb_eq. destruct (Key.eqb c1 c2); split; congruence.
Qed.

Lemma make_key_inv (c k : call) : Key.make_key c = Return k -> k = c.
Proof.
  unfold Key.make_key; destruct (_ && _); congruence.
Qed.

(** ** The memo as a list *)

Lemma cache_get_none (m : list (call * json)) (k : call) :
  Lru.cache_get m k = None <-> ~ In k (map fst m).
Proof.
  induction m as [|[k' v] m IH]; simpl.
  - tauto.
  - destruct (Key.eqb k k') eqn:E.
    + apply key_eqb_eq in E; subst. split; [discriminate | tauto].
    + apply key_eqb_neq in E. rewrite IH. split; [intros H [?|?]; [congruence|tauto] | tauto].
Qed.

Lemma cache_get_some_in (m : list (call * json)) (k : call) (v : json) :
  Lru.cache_get m k = Some v -> In (k, v) m.
Proof.
  induction m as [|[k' v'] m IH]; simpl; [discriminate|].
  destruct (Key.eqb k k') eqn:E.
  - apply key_eqb_eq in E; subst. intros [= ->]; auto.
  - auto.
Qed.

Lemma cache_get_in_keys (m : list (call * json)) (k : call) :
  In k (map fst m) -> exists v, Lru.cache_get m k = Some v.
Proof.
  intros H. destruct (Lru.cache_get m k) eqn:E; [eauto|].
  apply cache_get_none in E; contradiction.
Qed.

Lemma cache_get_app (m1 m2 : list (call * json)) (k : call) :
  Lru.cache_get (m1 ++ m2)%list k =
  match Lru.cache_get m1 k with
  | Some v => Some v
  | None => Lru.cache_get m2 k
  end.
Proof.
  induction m1 as [|[k' v'] m1 IH]; simpl; [reflexivity|].
  destruct (Key.eqb k k'); auto.
Qed.

Lemma cache_get_unlink (m : list (call * json)) (k : call) :
  Lru.cache_get (Lru.unlink m k) k = None.
Proof.
  apply cache_get_none. unfold Lru.unlink. intros H.
  apply in_map_iff in H as [[k' v] [Hk H]]; simpl in Hk; subst k'.
  apply filter_In in H as [_ H]; simpl in H.
  rewrite key_eqb_refl in H; discriminate.
Qed.

Lemma cache_get_tl (m : list (call * json)) (k : call) :
  Lru.cache_get m k = None -> Lru.cache_get (tl m) k = None.
Proof.
  destruct m as [|[k' v] m]; simpl; [auto|].
  destruct (Key.eqb k k'); [discriminate | auto].
Qed.

Lemma cache_get_last (m : list (call * json)) (k : call) (v : json) :
  Lru.cache_get m k = None -> Lru.cache_get (m ++ [(k, v)])%list k = Some v.
Proof.
  intros H. rewrite cache_get_app, H. simpl. rewrite key_eqb_refl. reflexivity.
Qed.

(** ** One call, case by case *)

Section Steps.

Variable remote : nat -> params -> response.

Lemma request_sent (w : world) (p : params) :
  sent (fst (request remote w p)) = (sent w ++ [p])%list.
Proof. unfold request. destruct (remote _ _); reflexivity. Qed.

Lemma request_returns (w w' : world) (p : params) (j : json) :
  request remote w p = (w', Return j) ->
  remote (length (sent w)) p = Body j /\
  w' = {| sent := (sent w ++ [p])%list; stdout := stdout w |}.
Proof.
  unfold request. destruct (remote _ _); intros [= <- <-]; auto.
Qed.

Lemma body_returns (w w' : world) (c : call) (j : json) :
  search_books_body remote w c = (w', Return j) ->
  exists p, descriptor c = Return p /\
            remote (length (sent w)) p = Body j /\
            w' = {| sent := (sent w ++ [p])%list; stdout := stdout w |}.
Proof.
  unfold search_books_body. destruct (descriptor c) as [p|e]; [|discriminate].
  intros H. exists p. split; [reflexivity|]. now apply request_returns.
Qed.

(** A hit: the stored result comes back, nothing is sent. *)
Lemma search_hit (st : state) (c : call) (v : json) :
  Key.make_key c = Return c ->
  Lru.cache_get (cache st) c = Some v ->
  search_books remote st c =
    ({| cache := (Lru.unlink (cache st) c ++ [(c, v)])%list;
        hits := S (hits st); misses := misses st; outside := outside st |},
     Return v).
Proof.
  intros Hk Hg. unfold search_books, Lru.wrapper. rewrite Hk, Hg. reflexivity.
Qed.

(** What a call that returns tells about the state before it. *)
Lemma search_returns (st st' : state) (c : call) (j : json) :
  search_books remote st c = (st', Return j) ->
  Key.make_key c = Return c /\
  ((Lru.cache_get (cache st) c = Some j /\
    st' = {| cache := (Lru.unlink (cache st) c ++ [(c, j)])%list;
             hits := S (hits st); misses := misses st; outside := outside st |})
   \/
   (Lru.cache_get (cache st) c = None /\
    exists p, descriptor c = Return p /\
      remote (length (sent (outside st))) p = Body j /\
      st' = {| cache := if (MAXSIZE <=? length (cache st))%nat
                        then (tl (cache st) ++ [(c, j)])%list
                        else (cache st ++ [(c, j)])%list;
               hits := hits st; misses := S (misses st);
               outside := {| sent := (sent (outside st) ++ [p])%list;
                             stdout := stdout (outside st) |} |})).
Proof.
  unfold search_books, Lru.wrapper.
  destruct (Key.make_key c) as [k|e] eqn:Hk; [|discriminate].
  apply make_key_inv in Hk as Hkc; subst k. intros H. split; [reflexivity|].
  revert H.
  destruct (Lru.cache_get (cache st) c) as [v|] eqn:Hg.
  - intros [= <- <-]. left; auto.
  - destruct (search_books_body remote (outside st) c) as [w [r|e]] eqn:Hb;
      [|discriminate].
    intros [= <- <-]. right. split; [reflexivity|].
    apply body_returns in Hb as (p & Hd & Hr & ->). eauto.
Qed.

(** After a call that returned, its key is in the memo with the
    result. *)
Lemma search_returns_cached (st st' : state) (c : call) (j : json) :
  search_books remote st c = (st', Return j) ->
  Lru.cache_get (cache st') c = Some j.
Proof.
  intros H. apply search_returns in H as [_ [[Hg ->]|[Hg (p & _ & _ & ->)]]];
    cbn [cache].
  - apply cache_get_last, cache_get_unlink.
  - destruct (MAXSIZE <=? length (cache st))%nat.
    + apply cache_get_last, cache_get_tl, Hg.
    + apply cache_get_last, Hg.
Qed.

End Steps.

(** ** C1 *)

(** C1 (amended): the memo is keyed by the call as written, not by the
    query it normalises to.  When a call returns, the same call (same
    instance, same positional and keyword arguments in the same order)
    made right after it is a hit: it returns the same result, counts as
    a hit and sends nothing; if the first call was a miss, the two
    together sent exactly one request. *)
Theorem C1_repeated_call_is_hit :
  forall (remote : nat -> params -> response) (st st1 : state) (c : call) (j : json),
    search_books remote st c = (st1, Return j) ->
    snd (search_books remote st1 c) = Return j /\
    hits (fst (search_books remote st1 c)) = S (hits st1) /\
    misses (fst (search_books remote st1 c)) = misses st1 /\
    outside (fst (search_books remote st1 c)) = outside st1 /\
    (Lru.cache_get (cache st) c = None ->
     remote_calls (fst (search_books remote st1 c)) = S (remote_calls st)).
Proof.
  intros remote st st1 c j H.
  pose proof (search_returns_cached _ _ _ H) as Hc.
  pose proof (search_returns _ _ _ H) as [Hk Hcase].
  rewrite (search_hit remote st1 Hk Hc); cbn [fst snd hits misses outside].
  repeat split.
  intros Hmiss. destruct Hcase as [[Hg _]|[_ (p & _ & _ & ->)]]; [congruence|].
  unfold remote_calls; cbn [outside sent]. rewrite length_app; cbn [length]. lia.
Qed.

Lemma C1_repeated_call_is_hit_witness :
  search_books no_match initial hobbit
  = (fst (search_books no_match initial hobbit),
     Return (JDict [("numFound", JInt 0); ("docs", JList [])])) /\
  remote_calls
    (fst (search_books no_match (fst (search_books no_match initial hobbit)) hobbit))
  = 1.
Proof.
  split; [reflexivity|].
  exact (proj2 (proj2 (proj2 (proj2
           (@C1_repeated_call_is_hit no_match initial _ hobbit _ eq_refl))))
           eq_refl).
Defined.

(** C1 as stated fails.  The title with two spaces and the title with
    one are two keys and two different queries: both calls go to the
    catalogue and neither is a hit.  Even one and the same query misses
    when it is written differently: with [+] for the space, or with the
    title passed by position instead of by keyword. *)
Lemma C1_counterexample :
  (let st := run no_match initial [by_title "The Hobbit"; by_title "The  Hobbit"] in
   remote_calls st = 2 /\ hits st = 0 /\
   descriptor (by_title "The Hobbit") <> descriptor (by_title "The  Hobbit")) /\
  (let st := run no_match initial [by_title "The Hobbit"; by_title "The+Hobbit"] in
   descriptor (by_title "The Hobbit") = descriptor (by_title "The+Hobbit") /\
   remote_calls st = 2 /\ hits st = 0) /\
  (let positional := {| self := 0; args := [VStr "The Hobbit"]; kwds := [] |} in
   let st := run no_match initial [by_title "The Hobbit"; positional] in
   descriptor (by_title "The Hobbit") = descriptor positional /\
   remote_calls st = 2 /\ hits st = 0).
Proof.
  repeat split; try reflexivity. discriminate.
Qed.

(** ** What the memo holds *)

Section Soundness.

Variable remote : nat -> params -> response.

Lemma body_extends (w : world) (c : call) :
  exists more, sent (fst (search_books_body remote w c)) = (sent w ++ more)%list.
Proof.
  unfold search_books_body. destruct (descriptor c) as [p|e].
  - exists [p]. apply request_sent.
  - exists []. cbn [fst]. now rewrite app_nil_r.
Qed.

Lemma nth_error_extends (A : Type) (l more : list A) (n : nat) (x : A) :
  nth_error l n = Some x -> nth_error (l ++ more) n = Some x.
Proof.
  intros H. rewrite nth_error_app1; [assumption|].
  apply nth_error_Some; congruence.
Qed.

Lemma initial_sound : memo_sound remote initial.
Proof. intros k v []. Qed.

Lemma search_sound (st : state) (c : call) :
  memo_sound remote st -> memo_sound remote (fst (search_books remote st c)).
Proof.
  intros Inv. unfold search_books, Lru.wrapper.
  destruct (Key.make_key c) as [k|e] eqn:Hk; [|exact Inv].
  apply make_key_inv in Hk; subst k.
  destruct (Lru.cache_get (cache st) c) as [v|] eqn:Hg.
  - intros k' v' Hin; cbn [fst cache outside] in *.
    apply in_app_or in Hin as [Hin|[[= <- <-]|[]]].
    + apply filter_In in Hin as [Hin _]. auto.
    + apply cache_get_some_in in Hg. auto.
  - destruct (body_extends (outside st) c) as [more Hmore].
    destruct (search_books_body remote (outside st) c) as [w [j|e]] eqn:Hb;
      cbn [fst] in *.
    + apply body_returns in Hb as (p & Hd & Hr & Hw).
      intros k' v' Hin; cbn [cache outside] in *.
      assert (Hold : In (k', v') (cache st) \/ (k', v') = (c, j)).
      { destruct (MAXSIZE <=? length (cache st))%nat;
          apply in_app_or in Hin as [Hin|[Hin|[]]]; auto.
        left. destruct (cache st); [destruct Hin | right; exact Hin]. }
      destruct Hold as [Hin'|[= -> ->]].
      * destruct (Inv _ _ Hin') as (n & q & Hq & Hn & Hrq).
        exists n, q. rewrite Hmore. auto using nth_error_extends.
      * exists (length (sent (outside st))), p. subst w; cbn [sent].
        rewrite nth_error_app2, Nat.sub_diag by lia. auto.
    + intros k' v' Hin; cbn [cache outside] in *.
      destruct (Inv _ _ Hin) as (n & q & Hq & Hn & Hrq).
      exists n, q. rewrite Hmore. auto using nth_error_extends.
Qed.

Lemma run_sound (cs : list call) (st : state) :
  memo_sound remote st -> memo_sound remote (run remote st cs).
Proof.
  revert st; induction cs as [|c cs IH]; intros st Inv; [exact Inv|].
  apply IH, search_sound, Inv.
Qed.

(** A call whose query cannot be built is never in the memo. *)
Lemma raising_call_not_cached (st : state) (c : call) (e : exn) :
  memo_sound remote st -> descriptor c = Raise e -> Lru.cache_get (cache st) c = None.
Proof.
  intros Inv Hd. destruct (Lru.cache_get (cache st) c) as [v|] eqn:Hg; [|reflexivity].
  apply cache_get_some_in, Inv in Hg as (n & p & Hp & _). congruence.
Qed.

End Soundness.

(** ** Which exceptions the construction of a query raises *)

Section RaisesOnly.

Variable P : exn -> Prop.

Lemma raises_only_bind (A B : Type) (m : outcome A) (k : A -> outcome B) :
  raises_only P m -> (forall a, raises_only P (k a)) -> raises_only P (bind m k).
Proof.
  intros Hm Hk e. destruct m as [a|e']; cbn [bind].
  - apply Hk.
  - intros [= ->]. now apply Hm.
Qed.

Lemma raises_only_return (A : Type) (a : A) : raises_only P (Return a).
Proof. intros e; discriminate. Qed.

Hypothesis type_error : P TypeError.
Hypothesis attribute_error : P AttributeError.

Lemma raises_only_replace (v : argval) (old : ascii) (new : string) :
  raises_only P (Arg.replace v old new).
Proof. destruct v; intros e [= <-]; assumption. Qed.

Lemma raises_only_join (sep : string) (v : argval) :
  raises_only P (Arg.join sep v).
Proof. destruct v; intros e [= <-]; assumption. Qed.

Lemma raises_only_min (v : argval) (z : Z) : raises_only P (Arg.min v z).
Proof. destruct v; intros e [= <-]; assumption. Qed.

Lemma raises_only_positional (names : list string) (actuals : list argval) :
  raises_only P (Binding.positional names actuals).
Proof.
  revert names; induction actuals as [|a actuals IH]; intros names; cbn.
  - apply raises_only_return.
  - destruct names as [|n names].
    + intros e [= <-]; assumption.
    + apply raises_only_bind; [apply IH|]. intros; apply raises_only_return.
Qed.

Lemma raises_only_keywords (kw : list (string * argval)) (e : Binding.env) :
  raises_only P (Binding.keywords e kw).
Proof.
  revert e; induction kw as [|[k v] kw IH]; intros e; cbn.
  - apply raises_only_return.
  - destruct (negb _); [intros ? [= <-]; assumption|].
    destruct (Binding.is_bound e k); [intros ? [= <-]; assumption|]. apply IH.
Qed.

Lemma raises_only_bind_args (c : call) : raises_only P (Binding.bind_args c).
Proof.
  unfold Binding.bind_args.
  apply raises_only_bind; [apply raises_only_positional|]. intros e1.
  apply raises_only_bind; [apply raises_only_keywords|]. intros e2.
  apply raises_only_return.
Qed.

(** [build_params] raises [ValueError] only from its check. *)
Lemma raises_only_build_params (b : bound) :
  (any_given b = false -> P (ValueError NO_PARAMETER_MESSAGE)) ->
  raises_only P (build_params b).
Proof.
  intros Hv. unfold build_params.
  destruct (any_given b); cbn [negb]; [|intros e [= <-]; auto].
  repeat (apply raises_only_bind; [|intros ?]);
    repeat match goal with
           | |- raises_only _ (if ?x then _ else _) => destruct x
           end;
    auto using raises_only_bind, raises_only_return, raises_only_replace,
               raises_only_join, raises_only_min.
Qed.

Lemma raises_only_descriptor (c : call) :
  P (ValueError NO_PARAMETER_MESSAGE) -> raises_only P (descriptor c).
Proof.
  intros Hv. unfold descriptor.
  apply raises_only_bind; [apply raises_only_bind_args|].
  intros b. apply raises_only_build_params. auto.
Qed.

End RaisesOnly.

(** ** C2 *)

Lemma build_params_passes (b : bound) :
  any_given b = true -> raises_only not_value_error (build_params b).
Proof.
  intros H. apply raises_only_build_params; try (intros msg; discriminate).
  congruence.
Qed.

Lemma build_params_rejects (b : bound) :
  any_given b = false -> build_params b = Raise (ValueError NO_PARAMETER_MESSAGE).
Proof. intros H. unfold build_params. rewrite H. reflexivity. Qed.

(** C2 (amended): the check is on the values as passed; nothing is
    trimmed.  In every state the client can reach, a hashable call whose
    title, author and ISBN are each [None] or empty raises [ValueError]
    and leaves the memo and the world as they were, so no request is
    sent; and a call in which one of the three is non-empty (a title of
    blanks is) never raises [ValueError]. *)
Theorem C2_validation :
  forall (remote : nat -> params -> response) (history : list call)
         (c : call) (b : bound),
    Binding.bind_args c = Return b ->
    let st := run remote initial history in
    (Key.make_key c = Return c ->
     Arg.truthy (title b) = false ->
     Arg.truthy (author b) = false ->
     Arg.truthy (isbn b) = false ->
     search_books remote st c =
       ({| cache := cache st; hits := hits st; misses := S (misses st);
           outside := outside st |},
        Raise (ValueError NO_PARAMETER_MESSAGE)))
    /\
    (Arg.truthy (title b) || Arg.truthy (author b) || Arg.truthy (isbn b) = true ->
     forall msg, snd (search_books remote st c) <> Raise (ValueError msg)).
Proof.
  intros remote history c b Hb st. split.
  - intros Hk Ht Ha Hi.
    assert (Hd : descriptor c = Raise (ValueError NO_PARAMETER_MESSAGE)).
    { unfold descriptor. rewrite Hb. cbn [bind]. apply build_params_rejects.
      unfold any_given. cbn [existsb]. rewrite Ht, Ha, Hi. reflexivity. }
    assert (Hg : Lru.cache_get (cache st) c = None).
    { eapply raising_call_not_cached; [|exact Hd].
      apply run_sound, initial_sound. }
    unfold search_books, Lru.wrapper, search_books_body.
    rewrite Hk, Hg, Hd. reflexivity.
  - intros Hany msg.
    assert (Hd : raises_only not_value_error (descriptor c)).
    { unfold descriptor. rewrite Hb. cbn [bind]. apply build_params_passes.
      unfold any_given. cbn [existsb]. rewrite orb_false_r, orb_assoc. exact Hany. }
    unfold search_books, Lru.wrapper, search_books_body.
    unfold Key.make_key. destruct (_ && _); [|cbn [snd]; discriminate].
    destruct (Lru.cache_get (cache st) c); [cbn [snd]; discriminate|].
    destruct (descriptor c) as [p|e] eqn:Hp.
    + unfold request. destruct (remote _ p); cbn [snd]; discriminate.
    + cbn [snd]. intros [= ->]. exact (Hd _ eq_refl msg eq_refl).
Qed.

Lemma C2_validation_witness :
  search_books no_match (run no_match initial [hobbit]) nothing_given
  = ({| cache := cache (run no_match initial [hobbit]);
        hits := 0; misses := 2;
        outside := outside (run no_match initial [hobbit]) |},
     Raise (ValueError NO_PARAMETER_MESSAGE))
  /\
  (forall msg,
     snd (search_books no_match (run no_match initial [hobbit]) (by_title " "))
     <> Raise (ValueError msg)).
Proof.
  split.
  - apply (proj1 (@C2_validation no_match [hobbit] nothing_given _ eq_refl));
      reflexivity.
  - apply (proj2 (@C2_validation no_match [hobbit] (by_title " ") _ eq_refl));
      reflexivity.
Defined.

(** C2 as stated fails: a title of one blank is empty after trimming,
    yet the call passes the check, and a request with the title [+] is
    sent. *)
Lemma C2_counterexample :
  snd (search_books no_match initial (by_title " "))
  = Return (JDict [("numFound", JInt 0); ("docs", JList [])]) /\
  sent (outside (fst (search_books no_match initial (by_title " "))))
  = [[("title", VStr "+");
      ("fields", VStr "title,author_name,first_publish_year,publisher,isbn,cover_i,description");
      ("limit", VInt 5); ("page", VInt 1)]].
Proof. split; reflexivity. Qed.

(** ** The query of well-typed criteria *)

Ltac destruct_text v :=
  destruct v as [|[|? ?]| | |]; try discriminate.

(** For well-typed criteria that pass the check the query is built, and
    each of its entries is known. *)
Lemma build_params_typed (b : bound) :
  Typed.well_typed b = true ->
  any_given b = true ->
  exists p,
    build_params b = Return p /\
    Dict.lookup p "title" = Typed.entry (title b) /\
    Dict.lookup p "author" = Typed.entry (author b) /\
    Dict.lookup p "isbn" = Typed.entry (isbn b) /\
    Dict.lookup p "fields" = Some (VStr (Text.join "," (Typed.items (fields b)))) /\
    Dict.lookup p "limit" = Some (VInt (Z.min (Typed.number (limit b)) 100)) /\
    Dict.lookup p "page" = Some (page b).
Proof.
  destruct b as [t a i f l pg so]. unfold Typed.well_typed, any_given, build_params.
  cbn [title author isbn fields limit page sort existsb].
  intros Hty Hany.
  assert (Hmin : forall z, (if Z.ltb 100 z then 100%Z else z) = Z.min z 100).
  { intros z. destruct (Z.ltb_spec 100 z); lia. }
  destruct_text t; destruct_text a; destruct_text i;
    try discriminate Hany;
    (destruct f; try discriminate Hty);
    (destruct l as [| |z| |]; try discriminate Hty);
    cbn -[Text.replace Text.join Z.ltb Z.min Arg.eqb];
    rewrite Hmin;
    (destruct (Arg.eqb so (VStr "new"));
     [|destruct (Arg.eqb so (VStr "old"));
       [|destruct (Arg.eqb so (VStr "title"))]]);
    eexists; (split; [reflexivity|]); cbn -[Text.replace Text.join Z.min];
    repeat split; reflexivity.
Qed.

(** ** C5 *)

(** C5 (amended): the limit sent is [min(limit, 100)].  A limit above
    100 is capped to 100; any other integer, below 1 included, is sent
    as it is and is not an error. *)
Theorem C5_limit_is_capped_above_only :
  forall (b : bound) (z : Z),
    Typed.well_typed b = true ->
    any_given b = true ->
    limit b = VInt z ->
    exists p,
      build_params b = Return p /\
      Dict.lookup p "limit" = Some (VInt (Z.min z 100)) /\
      ((100 < z)%Z -> Dict.lookup p "limit" = Some (VInt 100)) /\
      ((z <= 100)%Z -> Dict.lookup p "limit" = Some (VInt z)).
Proof.
  intros b z Hty Hany Hl.
  destruct (build_params_typed b Hty Hany) as (p & Hp & _ & _ & _ & _ & Hlim & _).
  rewrite Hl in Hlim; cbn [Typed.number] in Hlim.
  exists p. repeat split; try assumption; intros Hz; rewrite Hlim; do 2 f_equal; lia.
Qed.

Lemma C5_limit_is_capped_above_only_witness :
  exists p,
    build_params (with_limit 500) = Return p /\
    Dict.lookup p "limit" = Some (VInt (Z.min 500 100)) /\
    ((100 < 500)%Z -> Dict.lookup p "limit" = Some (VInt 100)) /\
    ((500 <= 100)%Z -> Dict.lookup p "limit" = Some (VInt 500)).
Proof.
  exact (@C5_limit_is_capped_above_only (with_limit 500) 500 eq_refl eq_refl eq_refl).
Defined.

(** C5 as stated fails below 1: a limit of 0 and a limit of -7 are
    neither rejected nor raised to 1; they are sent as they are. *)
Lemma C5_counterexample :
  (exists p, build_params (with_limit 0) = Return p /\
             Dict.lookup p "limit" = Some (VInt 0)) /\
  (exists p, build_params (with_limit (-7)) = Return p /\
             Dict.lookup p "limit" = Some (VInt (-7))) /\
  sent (outside (fst (search_books no_match initial
          {| self := 0; args := []; kwds := [("title", VStr "dune"); ("limit", VInt 0)] |})))
  = [[("title", VStr "dune");
      ("fields", VStr "title,author_name,first_publish_year,publisher,isbn,cover_i,description");
      ("limit", VInt 0); ("page", VInt 1)]].
Proof.
  split; [|split]; [eexists; split; reflexivity ..| reflexivity].
Qed.

(** ** C6 *)

Lemma replace_space_length (s : string) :
  String.length (Text.replace " " "+" s) = String.length s.
Proof.
  induction s as [|c s IH]; [reflexivity|].
  cbn [Text.replace]. destruct (Ascii.eqb c " "); cbn; now rewrite IH.
Qed.

Lemma replace_space_get (s : string) (n : nat) :
  String.get n (Text.replace " " "+" s) = option_map plus_for_space (String.get n s).
Proof.
  revert n; induction s as [|c s IH]; intros n; [reflexivity|].
  cbn [Text.replace]. unfold plus_for_space at 1.
  destruct (Ascii.eqb c " ") eqn:E; destruct n as [|n]; cbn;
    try apply IH; unfold plus_for_space; now rewrite ?E.
Qed.

(** C6 (amended): each space of a present title, author or ISBN becomes
    one [+], character by character.  The entry has the length of the
    criterion, so a run of [n] spaces becomes [n] plus signs, and every
    other character (a tab, say) stays as it is. *)
Theorem C6_each_space_becomes_a_plus :
  forall (b : bound) (name : string) (criterion : bound -> argval) (s : string),
    Typed.well_typed b = true ->
    In (name, criterion) TEXT_CRITERIA ->
    criterion b = VStr s ->
    s <> "" ->
    exists p,
      build_params b = Return p /\
      Dict.lookup p name = Some (VStr (Text.replace " " "+" s)) /\
      String.length (Text.replace " " "+" s) = String.length s /\
      forall n, String.get n (Text.replace " " "+" s)
                = option_map plus_for_space (String.get n s).
Proof.
  intros b name criterion s Hty Hin Hc Hs.
  assert (Htr : Arg.truthy (criterion b) = true).
  { rewrite Hc. cbn. apply negb_true_iff, String.eqb_neq, Hs. }
  assert (Hentry : Typed.entry (criterion b) = Some (VStr (Text.replace " " "+" s))).
  { rewrite Hc. cbn [Typed.entry]. apply String.eqb_neq in Hs. now rewrite Hs. }
  assert (Hany : any_given b = true).
  { unfold any_given; cbn [existsb].
    destruct Hin as [[= <- <-]|[[= <- <-]|[[= <- <-]|[]]]];
      rewrite Htr, ?orb_true_r; reflexivity. }
  destruct (build_params_typed b Hty Hany) as (p & Hp & Ht & Ha & Hi & _).
  exists p. split; [exact Hp|]. split.
  - destruct Hin as [[= <- <-]|[[= <- <-]|[[= <- <-]|[]]]]; congruence.
  - split; [apply replace_space_length | apply replace_space_get].
Qed.

Lemma C6_each_space_becomes_a_plus_witness :
  exists p,
    build_params (by_author "Ursula  Le Guin") = Return p /\
    Dict.lookup p "author" = Some (VStr (Text.replace " " "+" "Ursula  Le Guin")) /\
    String.length (Text.replace " " "+" "Ursula  Le Guin")
    = String.length "Ursula  Le Guin" /\
    forall n, String.get n (Text.replace " " "+" "Ursula  Le Guin")
              = option_map plus_for_space (String.get n "Ursula  Le Guin").
Proof.
  apply (@C6_each_space_becomes_a_plus (by_author "Ursula  Le Guin") "author" author).
  - reflexivity.
  - right; left; reflexivity.
  - reflexivity.
  - discriminate.
Defined.

(** C6 as stated fails: two spaces in a row become two plus signs, so
    the title with a double space does not get the wire form of the
    title with a single space; and a tab is left in place. *)
Lemma C6_counterexample :
  descriptor (by_title "The  Hobbit")
  = Return [("title", VStr "The++Hobbit");
            ("fields", VStr "title,author_name,first_publish_year,publisher,isbn,cover_i,description");
            ("limit", VInt 5); ("page", VInt 1)] /\
  descriptor (by_title "The  Hobbit") <> descriptor (by_title "The Hobbit") /\
  Text.replace " " "+" (String "a" (String (ascii_of_nat 9) "b"))
  = String "a" (String (ascii_of_nat 9) "b").
Proof. repeat split; (reflexivity || discriminate). Qed.

(** ** C9 *)

Lemma forallb_false_of_in (A : Type) (f : A -> bool) (l : list A) (x : A) :
  In x l -> f x = false -> forallb f l = false.
Proof.
  intros Hin Hf. destruct (forallb f l) eqn:E; [|reflexivity].
  rewrite forallb_forall in E. rewrite (E x Hin) in Hf. discriminate.
Qed.

(** C9: a list of field names passed by the caller, by position or by
    keyword, makes the call raise [TypeError] when the key is built: a
    list cannot be hashed.  The state is untouched and no query is
    built or sent. *)
Theorem C9_caller_list_is_rejected :
  forall (remote : nat -> params -> response) (st : state) (c : call)
         (l : list string),
    In (VList l) (args c) \/ In ("fields", VList l) (kwds c) ->
    search_books remote st c = (st, Raise TypeError).
Proof.
  intros remote st c l H.
  unfold search_books, Lru.wrapper, Key.make_key.
  replace (forallb Arg.hashable (args c)
           && forallb (fun kv => Arg.hashable (snd kv)) (kwds c)) with false;
    [reflexivity|].
  symmetry. apply andb_false_iff. destruct H as [H|H].
  - left. now apply forallb_false_of_in with (x := VList l).
  - right. now apply forallb_false_of_in with (x := ("fields", VList l)).
Qed.

Lemma C9_caller_list_is_rejected_witness :
  search_books no_match initial two_fields = (initial, Raise TypeError).
Proof.
  apply (@C9_caller_list_is_rejected no_match initial two_fields ["title"; "author_name"]).
  right; right; left; reflexivity.
Defined.

(** ** C8 *)

Section Failure.

Variable remote : nat -> params -> response.

(** A miss whose query is built sends it, whatever the answer. *)
Lemma search_miss_sends (st : state) (c : call) (p : params) :
  Key.make_key c = Return c ->
  Lru.cache_get (cache st) c = None ->
  descriptor c = Return p ->
  sent (outside (fst (search_books remote st c))) = (sent (outside st) ++ [p])%list.
Proof.
  intros Hk Hg Hd. unfold search_books, Lru.wrapper, search_books_body.
  rewrite Hk, Hg, Hd.
  pose proof (request_sent remote (outside st) p) as Hs.
  destruct (request remote (outside st) p) as [w [j|e]]; exact Hs.
Qed.

(** What a call that raises [RequestException] tells: it was a miss,
    its query was built and sent, and the catalogue failed. *)
Lemma search_raises_request (st : state) (c : call) (msg : string) :
  snd (search_books remote st c) = Raise (RequestException msg) ->
  Key.make_key c = Return c /\
  Lru.cache_get (cache st) c = None /\
  exists p,
    descriptor c = Return p /\
    remote (length (sent (outside st))) p = Failed msg /\
    fst (search_books remote st c)
    = {| cache := cache st; hits := hits st; misses := S (misses st);
         outside :=
           {| sent := (sent (outside st) ++ [p])%list;
              stdout := (stdout (outside st)
                         ++ [("API request failed: " ++ msg)%string])%list |} |}.
Proof.
  unfold search_books, Lru.wrapper.
  destruct (Key.make_key c) as [k|e] eqn:Hk.
  2:{ revert Hk. unfold Key.make_key.
      destruct (_ && _); [discriminate | intros [= <-]; discriminate]. }
  apply make_key_inv in Hk as Hkc; subst k.
  destruct (Lru.cache_get (cache st) c) as [v|] eqn:Hg; [discriminate|].
  unfold search_books_body.
  destruct (descriptor c) as [p|e] eqn:Hd.
  - unfold request. destruct (remote _ p) as [j|m] eqn:Hr; cbn [fst snd];
      [discriminate|].
    intros [= ->]. repeat split. exists p. auto.
  - cbn [snd]. intros [= ->].
    assert (Hloc : raises_only not_request_exception (descriptor c))
      by (apply raises_only_descriptor; intros m; discriminate).
    exfalso. exact (Hloc _ Hd msg eq_refl).
Qed.

End Failure.

(** C8: in every state the client can reach, each entry of the memo is
    the body of a request that was answered without failure; and when a
    call raises [RequestException], the memo is what it was before the
    call, one request was sent, and the same call made right after it
    sends a second one. *)
Theorem C8_failure_is_not_cached :
  forall (remote : nat -> params -> response) (history : list call)
         (c : call) (msg : string),
    let st := run remote initial history in
    memo_sound remote st /\
    (snd (search_books remote st c) = Raise (RequestException msg) ->
     let st1 := fst (search_books remote st c) in
     cache st1 = cache st /\
     remote_calls st1 = S (remote_calls st) /\
     remote_calls (fst (search_books remote st1 c)) = S (S (remote_calls st))).
Proof.
  intros remote history c msg st. split.
  - apply run_sound, initial_sound.
  - intros H. apply search_raises_request in H as (Hk & Hg & p & Hd & _ & Hst).
    cbv zeta. rewrite Hst. cbn [cache]. split; [reflexivity|].
    unfold remote_calls. split.
    + cbn [outside sent]. rewrite length_app. cbn [length]. lia.
    + rewrite (search_miss_sends remote _ Hk (p := p)); [|exact Hg|exact Hd].
      cbn [outside sent]. rewrite !length_app. cbn [length]. lia.
Qed.

Lemma C8_failure_is_not_cached_witness :
  snd (search_books flaky initial hobbit) = Raise (RequestException "timed out") /\
  cache (fst (search_books flaky initial hobbit)) = [] /\
  remote_calls (fst (search_books flaky initial hobbit)) = 1 /\
  remote_calls
    (fst (search_books flaky (fst (search_books flaky initial hobbit)) hobbit)) = 2.
Proof.
  split; [reflexivity|].
  exact (proj2 (@C8_failure_is_not_cached flaky [] hobbit "timed out") eq_refl).
Defined.

(** ** C7 *)

Lemma maxsize_positive : 0 < MAXSIZE.
Proof. unfold MAXSIZE; lia. Qed.

Lemma keys_unlink (m : list (call * json)) (k : call) :
  map fst (Lru.unlink m k) = filter (fun k' => negb (Key.eqb k k')) (map fst m).
Proof.
  unfold Lru.unlink. induction m as [|[k' v] m IH]; [reflexivity|].
  cbn [filter map fst]. destruct (negb (Key.eqb k k')); cbn [map fst]; now rewrite IH.
Qed.

Lemma NoDup_snoc (A : Type) (l : list A) (x : A) :
  NoDup l -> ~ In x l -> NoDup (l ++ [x]).
Proof.
  induction l as [|y l IH]; cbn [app]; intros Hnd Hx.
  - constructor; [intros [] | constructor].
  - inversion Hnd as [|? ? Hy Hl]; subst. constructor.
    + intros Hin. apply in_app_or in Hin as [Hin|[<-|[]]]; [auto|].
      apply Hx. left; reflexivity.
    + apply IH; [exact Hl|]. intros Hin. apply Hx. right; exact Hin.
Qed.

Lemma NoDup_tl (A : Type) (l : list A) : NoDup l -> NoDup (tl l).
Proof. destruct l; [auto|]. intros H. now inversion H. Qed.

Lemma map_tl (A B : Type) (f : A -> B) (l : list A) : map f (tl l) = tl (map f l).
Proof. destruct l; reflexivity. Qed.

Lemma in_tl (A : Type) (l : list A) (x : A) : In x (tl l) -> In x l.
Proof. destruct l; [auto|]. intros H. right; exact H. Qed.

Section Eviction.

Variable remote : nat -> params -> response.

Lemma unlink_shorter (m : list (call * json)) (k : call) (v : json) :
  Lru.cache_get m k = Some v -> length (Lru.unlink m k) < length m.
Proof.
  induction m as [|[k' v'] m IH]; cbn; [discriminate|].
  destruct (Key.eqb k k'); cbn.
  - intros _. pose proof (filter_length_le (fun kv => negb (Key.eqb k (fst kv))) m).
    unfold Lru.unlink in *. lia.
  - intros H. apply IH in H. unfold Lru.unlink in *. lia.
Qed.

Lemma search_bounded (st : state) (c : call) :
  length (cache st) <= MAXSIZE ->
  length (cache (fst (search_books remote st c))) <= MAXSIZE.
Proof.
  intros Hb. unfold search_books, Lru.wrapper.
  destruct (Key.make_key c) as [k|e]; [|exact Hb].
  destruct (Lru.cache_get (cache st) k) as [v|] eqn:Hg.
  - cbn [fst cache]. rewrite length_app. cbn [length].
    apply unlink_shorter in Hg. lia.
  - destruct (search_books_body remote (outside st) c) as [w [j|e]];
      cbn [fst cache]; [|exact Hb].
    pose proof maxsize_positive.
    destruct (Nat.leb_spec MAXSIZE (length (cache st)));
      rewrite length_app; cbn [length].
    + destruct (cache st); cbn [tl length] in *; lia.
    + lia.
Qed.

Lemma run_bounded (cs : list call) (st : state) :
  length (cache st) <= MAXSIZE -> length (cache (run remote st cs)) <= MAXSIZE.
Proof.
  revert st; induction cs as [|c cs IH]; intros st Hb; [exact Hb|].
  apply IH, search_bounded, Hb.
Qed.

(** A session of calls that are new to the memo and distinct: the memo
    ends with the most recent keys, in the order of the calls, and the
    oldest keys are the ones dropped. *)
Lemma run_distinct (cs : list call) (st : state) :
  length (cache st) <= MAXSIZE ->
  NoDup (keys st ++ cs) ->
  all_return remote st cs = true ->
  exists dropped,
    (keys st ++ cs = dropped ++ keys (run remote st cs))%list /\
    length (keys (run remote st cs)) = Nat.min MAXSIZE (length (keys st) + length cs).
Proof.
  revert st; induction cs as [|c cs IH]; intros st Hb Hnd Hret.
  - exists []. cbn [run fold_left app]. rewrite app_nil_r. split; [reflexivity|].
    unfold keys in *. rewrite length_map. cbn [length]. lia.
  - cbn [all_return] in Hret.
    destruct (search_books remote st c) as [st1 [j|e]] eqn:Hs; [|discriminate].
    assert (Hnew : ~ In c (keys st)).
    { intros Hin. apply NoDup_remove_2 in Hnd. apply Hnd, in_or_app. auto. }
    pose proof (search_bounded st c Hb) as Hb1. rewrite Hs in Hb1; cbn [fst] in Hb1.
    assert (Hrun : run remote st (c :: cs) = run remote st1 cs).
    { cbn [run fold_left]. now rewrite Hs. }
    rewrite Hrun.
    apply search_returns in Hs as [_ [[Hg _]|[_ (p & _ & _ & Hst)]]].
    { apply cache_get_some_in in Hg. exfalso. apply Hnew.
      unfold keys. apply in_map_iff. exists (c, j); auto. }
    assert (Hk1 : keys st1 = ((if (MAXSIZE <=? length (cache st))%nat
                               then tl (keys st) else keys st) ++ [c])%list).
    { subst st1. unfold keys. cbn [cache].
      destruct (MAXSIZE <=? length (cache st))%nat; rewrite map_app; [|reflexivity].
      destruct (cache st); reflexivity. }
    assert (Hlen : length (keys st) = length (cache st)) by apply length_map.
    pose proof maxsize_positive as Hpos.
    destruct (Nat.leb_spec MAXSIZE (length (cache st))) as [Hfull|Hroom].
    + destruct (keys st) as [|k0 t] eqn:Hkeys; [cbn [length] in Hlen; lia|].
      cbn [tl] in Hk1.
      destruct (IH st1 Hb1) as (dropped & Heq & Hl); [| exact Hret |].
      { rewrite Hk1, <- app_assoc. cbn [app] in *. now inversion Hnd. }
      exists (k0 :: dropped). split.
      * cbn [app]. f_equal. rewrite <- Heq, Hk1, <- app_assoc. reflexivity.
      * rewrite Hl, Hk1, length_app. cbn [length] in *. lia.
    + destruct (IH st1 Hb1) as (dropped & Heq & Hl); [| exact Hret |].
      { rewrite Hk1, <- app_assoc. exact Hnd. }
      exists dropped. split.
      * rewrite <- Heq, Hk1, <- app_assoc. reflexivity.
      * rewrite Hl, Hk1, length_app. cbn [length]. lia.
Qed.

Lemma all_return_first (st : state) (c : call) (cs : list call) :
  all_return remote st (c :: cs) = true -> exists j, snd (search_books remote st c) = Return j.
Proof.
  cbn [all_return]. destruct (search_books remote st c) as [st1 [j|e]];
    [cbn [snd]; eauto | discriminate].
Qed.

Lemma all_return_hashable (cs : list call) (st : state) (c : call) :
  all_return remote st cs = true -> In c cs -> Key.make_key c = Return c.
Proof.
  revert st; induction cs as [|c' cs IH]; intros st Hret [].
  - subst c'. cbn [all_return] in Hret.
    destruct (search_books remote st c) as [st1 [j|e]] eqn:Hs; [|discriminate].
    now apply search_returns in Hs.
  - cbn [all_return] in Hret.
    destruct (search_books remote st c') as [st1 [j|e]]; [|discriminate].
    eapply IH; eassumption.
Qed.

End Eviction.

(** ** Recency of use *)

Lemma filter_out_absent (l : list call) (c : call) :
  ~ In c l -> filter (fun k => negb (Key.eqb c k)) l = l.
Proof.
  induction l as [|k l IH]; intros H; [reflexivity|].
  cbn [filter]. destruct (Key.eqb c k) eqn:E.
  - apply key_eqb_eq in E; subst. exfalso. apply H. left; reflexivity.
  - cbn [negb]. f_equal. apply IH. intros Hin. apply H. right; exact Hin.
Qed.

Lemma filter_out_length (l : list call) (c : call) :
  NoDup l -> In c l ->
  S (length (filter (fun k => negb (Key.eqb c k)) l)) = length l.
Proof.
  induction l as [|k l IH]; intros Hnd Hin; [destruct Hin|].
  inversion Hnd as [|? ? Hk Hl]; subst. cbn [filter].
  destruct (Key.eqb c k) eqn:E.
  - apply key_eqb_eq in E; subst. cbn [negb length].
    now rewrite filter_out_absent.
  - cbn [negb length]. f_equal. apply IH; [exact Hl|].
    destruct Hin as [->|Hin]; [|exact Hin].
    rewrite key_eqb_refl in E; discriminate.
Qed.

Lemma touch_distinct (l : list call) (c : call) : NoDup l -> NoDup (touch c l).
Proof.
  intros Hnd. unfold touch. apply NoDup_snoc; [now apply NoDup_filter|].
  intros Hin. apply filter_In in Hin as [_ Hin].
  rewrite key_eqb_refl in Hin. discriminate.
Qed.

Lemma touch_app_recent (older recent : list call) (c : call) :
  ~ In c older ->
  touch c (older ++ recent) = (older ++ touch c recent)%list.
Proof.
  intros H. unfold touch. rewrite filter_app, (@filter_out_absent _ _ H).
  now rewrite app_assoc.
Qed.

Lemma NoDup_app_disjoint (A : Type) (l1 l2 : list A) (x : A) :
  NoDup (l1 ++ l2) -> In x l2 -> ~ In x l1.
Proof.
  induction l1 as [|y l1 IH]; cbn [app]; intros Hnd H2 H1; [destruct H1|].
  inversion Hnd as [|? ? Hy Hl]; subst.
  destruct H1 as [->|H1].
  - apply Hy, in_or_app. right; exact H2.
  - exact (IH Hl H2 H1).
Qed.

Lemma keys_hit (st : state) (c : call) (v : json) :
  keys {| cache := (Lru.unlink (cache st) c ++ [(c, v)])%list;
          hits := S (hits st); misses := misses st; outside := outside st |}
  = touch c (keys st).
Proof. unfold keys, touch. cbn [cache]. now rewrite map_app, keys_unlink. Qed.

Section Recency.

Variable remote : nat -> params -> response.

(** The memo is the recent end of the list [used] of the calls made so
    far, ordered by their last use: what is older is there only when
    the memo is full. *)
Definition tracked (st : state) (used : list call) : Prop :=
  NoDup used /\
  length (keys st) <= MAXSIZE /\
  exists older, used = (older ++ keys st)%list /\
                (older = [] \/ length (keys st) = MAXSIZE).

Lemma tracked_initial : tracked initial [].
Proof.
  split; [constructor|]. split; [cbn; lia|]. exists []. split; [reflexivity | now left].
Qed.

Lemma search_tracked (st st' : state) (c : call) (j : json) (used : list call) :
  tracked st used ->
  search_books remote st c = (st', Return j) ->
  tracked st' (touch c used).
Proof.
  intros (Hnd & Hb & older & Hused & Hfull) Hs.
  split; [now apply touch_distinct|].
  assert (Hlen : length (keys st) = length (cache st)) by apply length_map.
  subst used.
  apply search_returns in Hs as [_ [[Hg ->]|[Hg (p & _ & _ & ->)]]].
  - assert (Hin : In c (keys st)).
    { apply cache_get_some_in in Hg. unfold keys. apply in_map_iff.
      exists (c, j); auto. }
    assert (Hsame : length (touch c (keys st)) = length (keys st)).
    { unfold touch. rewrite length_app. cbn [length].
      pose proof (@filter_out_length _ _ (NoDup_app_remove_l _ _ Hnd) Hin). lia. }
    rewrite keys_hit, Hsame. split; [exact Hb|].
    exists older. split; [|exact Hfull].
    apply touch_app_recent. eapply NoDup_app_disjoint; eassumption.
  - apply cache_get_none in Hg. fold (keys st) in Hg.
    assert (Hk : forall w,
               keys {| cache := if (MAXSIZE <=? length (cache st))%nat
                                then (tl (cache st) ++ [(c, j)])%list
                                else (cache st ++ [(c, j)])%list;
                       hits := hits st; misses := S (misses st); outside := w |}
               = ((if (MAXSIZE <=? length (cache st))%nat
                   then tl (keys st) else keys st) ++ [c])%list).
    { intros w. unfold keys. cbn [cache].
      destruct (MAXSIZE <=? length (cache st))%nat; rewrite map_app; [|reflexivity].
      destruct (cache st); reflexivity. }
    rewrite Hk.
    assert (Htouch : touch c (older ++ keys st)
                     = (filter (fun k => negb (Key.eqb c k)) older ++ keys st ++ [c])%list).
    { unfold touch. rewrite filter_app, (@filter_out_absent _ _ Hg).
      now rewrite <- app_assoc. }
    rewrite Htouch.
    pose proof maxsize_positive as Hpos.
    destruct (Nat.leb_spec MAXSIZE (length (cache st))) as [Hfilled|Hroom].
    + destruct (keys st) as [|k0 t] eqn:Hkeys; [cbn [length] in Hlen; lia|].
      cbn [tl]. rewrite length_app. cbn [length] in *.
      split; [lia|].
      exists (filter (fun k => negb (Key.eqb c k)) older ++ [k0])%list.
      split; [|right; lia].
      rewrite <- !app_assoc. reflexivity.
    + destruct Hfull as [->|Hfull]; [|lia].
      rewrite length_app. cbn [length filter app].
      split; [lia|]. exists []. split; [reflexivity | now left].
Qed.

Lemma run_tracked (cs : list call) (st : state) (used : list call) :
  tracked st used ->
  all_return remote st cs = true ->
  tracked (run remote st cs) (fold_left (fun l c => touch c l) cs used).
Proof.
  revert st used; induction cs as [|c cs IH]; intros st used Ht Hret; [exact Ht|].
  cbn [all_return] in Hret.
  destruct (search_books remote st c) as [st1 [j|e]] eqn:Hs; [|discriminate].
  assert (Hrun : run remote st (c :: cs) = run remote st1 cs).
  { cbn [run fold_left]. now rewrite Hs. }
  rewrite Hrun. cbn [fold_left]. apply IH; [|exact Hret].
  eapply search_tracked; eassumption.
Qed.

Lemma tracked_most_recent (st : state) (used : list call) :
  tracked st used -> keys st = most_recent MAXSIZE used.
Proof.
  intros (_ & Hb & older & -> & Hfull). unfold most_recent.
  rewrite length_app. destruct Hfull as [->|Hm].
  - cbn [length app]. replace (0 + length (keys st) - MAXSIZE) with 0 by lia.
    reflexivity.
  - rewrite Hm.
    replace (length older + MAXSIZE - MAXSIZE) with (length older) by lia.
    rewrite skipn_app, skipn_all, Nat.sub_diag. reflexivity.
Qed.

(** The calls at the front of the memo made again in turn: each is a
    hit, nothing is sent, and they end up at the back in the same
    order. *)
Lemma run_again (l q : list call) (st : state) :
  keys st = (l ++ q)%list ->
  NoDup (l ++ q) ->
  (forall c, In c l -> Key.make_key c = Return c) ->
  keys (run remote st l) = (q ++ l)%list /\
  outside (run remote st l) = outside st /\
  hits (run remote st l) = hits st + length l /\
  misses (run remote st l) = misses st.
Proof.
  revert q st; induction l as [|k l IH]; intros q st Hkeys Hnd Hhash.
  - cbn [run fold_left app length] in *. rewrite app_nil_r.
    repeat split; [exact Hkeys | lia].
  - destruct (cache_get_in_keys (cache st) k) as [v Hv].
    { fold (keys st). rewrite Hkeys. left; reflexivity. }
    assert (Hk : Key.make_key k = Return k) by (apply Hhash; left; reflexivity).
    pose proof (search_hit remote st Hk Hv) as Hs.
    assert (Hrun : run remote st (k :: l)
                   = run remote (fst (search_books remote st k)) l) by reflexivity.
    rewrite Hrun, Hs. cbn [fst].
    cbn [app] in Hnd. inversion Hnd as [|? ? Hnew Hrest]; subst.
    destruct (IH (q ++ [k])%list
                {| cache := (Lru.unlink (cache st) k ++ [(k, v)])%list;
                   hits := S (hits st); misses := misses st; outside := outside st |})
      as (H1 & H2 & H3 & H4).
    + rewrite keys_hit, Hkeys. unfold touch. cbn [app filter].
      rewrite key_eqb_refl. cbn [negb].
      rewrite (@filter_out_absent _ _ Hnew). now rewrite <- app_assoc.
    + rewrite app_assoc. now apply NoDup_snoc.
    + intros c Hin. apply Hhash. right; exact Hin.
    + rewrite H1, H2, H3, H4. cbn [hits misses outside length].
      rewrite <- app_assoc. cbn [app]. repeat split. lia.
Qed.

End Recency.

(** C7: the memo never holds more than 100 entries and gives up the
    least recently used one.  After any session on a fresh client in
    which every call returned, the keys of the memo are the 100 most
    recently used calls (all of them when there were fewer), ordered by
    their last use, an answer from the memo counting as a use.  So after
    101 calls with pairwise distinct queries that all returned, the memo
    holds the last 100 of them, oldest first: the first call, the least
    recently used, is the one evicted.  Making it again sends a request,
    while each of the other hundred is answered from the memo with
    nothing sent; and when the other hundred are made again one after
    the other, all hundred are answered from the memo, nothing is sent,
    and the memo still holds them. *)
Theorem C7_lru_eviction :
  forall remote : nat -> params -> response,
    (forall cs, length (cache (run remote initial cs)) <= MAXSIZE) /\
    (forall cs,
       all_return remote initial cs = true ->
       keys (run remote initial cs) = most_recent MAXSIZE (recency cs)) /\
    (forall (first : call) (rest : list call),
       length rest = MAXSIZE ->
       NoDup (map descriptor (first :: rest)) ->
       all_return remote initial (first :: rest) = true ->
       let st := run remote initial (first :: rest) in
       keys st = rest /\
       ~ In first (keys st) /\
       remote_calls (fst (search_books remote st first)) = S (remote_calls st) /\
       (forall c, In c rest ->
          exists j, snd (search_books remote st c) = Return j /\
                    outside (fst (search_books remote st c)) = outside st /\
                    hits (fst (search_books remote st c)) = S (hits st)) /\
       (let again := run remote st rest in
        keys again = rest /\
        remote_calls again = remote_calls st /\
        hits again = hits st + MAXSIZE /\
        misses again = misses st)).
Proof.
  intros remote.
  split; [intros cs; apply run_bounded; cbn; lia|].
  split.
  { intros cs Hret. apply tracked_most_recent.
    apply (@run_tracked remote cs _ _ tracked_initial Hret). }
  intros first rest Hlen Hnd Hret st.
  apply NoDup_map_inv in Hnd.
  assert (Hkeys : keys st = rest).
  { destruct (run_distinct remote (first :: rest) initial) as (dropped & Heq & Hl);
      [cbn; lia | exact Hnd | exact Hret |].
    fold st in Heq, Hl. cbn [keys initial cache map app length] in Heq, Hl.
    rewrite Hlen, Nat.min_l in Hl by lia.
    assert (Hd : length dropped = 1).
    { apply (f_equal (@length call)) in Heq.
      rewrite length_app in Heq. cbn [length] in Heq. lia. }
    destruct dropped as [|d [|d' dropped]]; try discriminate Hd.
    cbn [app] in Heq. congruence. }
  assert (Hnew : ~ In first (keys st)).
  { rewrite Hkeys. now inversion Hnd. }
  split; [exact Hkeys|]. split; [exact Hnew|]. split; [|split].
  - assert (Hk : Key.make_key first = Return first).
    { eapply all_return_hashable; [exact Hret | left; reflexivity]. }
    destruct (all_return_first remote initial first rest Hret) as [j Hj].
    destruct (search_books remote initial first) as [st1 r] eqn:Hs.
    cbn [snd] in Hj; subst r.
    apply search_returns in Hs as [_ [[Hg _]|[_ (p & Hd & _)]]]; [discriminate Hg|].
    unfold remote_calls.
    rewrite (search_miss_sends remote st Hk (p := p)); [| |exact Hd].
    + rewrite length_app. cbn [length]. lia.
    + apply cache_get_none. exact Hnew.
  - intros c Hin.
    assert (Hk : Key.make_key c = Return c).
    { eapply all_return_hashable; [exact Hret | right; exact Hin]. }
    destruct (cache_get_in_keys (cache st) c) as [v Hv].
    { fold (keys st). now rewrite Hkeys. }
    exists v. rewrite (search_hit remote st Hk Hv). repeat split.
  - destruct (run_again remote rest [] st) as (H1 & H2 & H3 & H4).
    + now rewrite app_nil_r.
    + rewrite app_nil_r. now inversion Hnd.
    + intros c Hin. eapply all_return_hashable; [exact Hret | right; exact Hin].
    + cbv zeta. unfold remote_calls. rewrite H1, H2, H3, H4, Hlen.
      repeat split.
Qed.

Lemma page_of_distinct (n : nat) : NoDup (map descriptor (map page_of (seq 0 n))).
Proof.
  rewrite map_map. apply Injective_map_NoDup; [|apply seq_NoDup].
  intros i j H. unfold descriptor, page_of in H.
  cbn -[Z.of_nat] in H. injection H as H. now apply Nat2Z.inj.
Qed.

Lemma C7_lru_eviction_witness :
  keys (run no_match initial (page_of 0 :: map page_of (seq 1 100)))
  = map page_of (seq 1 100) /\
  remote_calls
    (fst (search_books no_match
            (run no_match initial (page_of 0 :: map page_of (seq 1 100)))
            (page_of 0)))
  = 102 /\
  hits (run no_match
          (run no_match initial (page_of 0 :: map page_of (seq 1 100)))
          (map page_of (seq 1 100)))
  = 100 /\
  keys (run no_match initial
          (map page_of (seq 0 100) ++ [page_of 0; page_of 100]))
  = (map page_of (seq 2 98) ++ [page_of 0; page_of 100])%list.
Proof.
  destruct (C7_lru_eviction no_match) as (_ & Hrecent & Hfull).
  assert (Hlen : length (map page_of (seq 1 100)) = MAXSIZE) by reflexivity.
  assert (Hret : all_return no_match initial (page_of 0 :: map page_of (seq 1 100)) = true)
    by (vm_compute; reflexivity).
  destruct (Hfull (page_of 0) (map page_of (seq 1 100))
              Hlen (page_of_distinct 101) Hret) as (Hkeys & _ & Hagain & _ & Hturn).
  destruct Hturn as (_ & _ & Hhits & _).
  split; [exact Hkeys|].
  split; [rewrite Hagain; vm_compute; reflexivity|].
  split; [rewrite Hhits; vm_compute; reflexivity|].
  rewrite Hrecent by (vm_compute; reflexivity).
  vm_compute. reflexivity.
Defined.

(* ================================================================= *)
(** ** The summary, line by line *)

Lemma append_assoc (s1 s2 s3 : string) : (s1 ++ s2) ++ s3 = s1 ++ s2 ++ s3.
Proof. induction s1 as [|c s1 IH]; cbn; [reflexivity | now rewrite IH]. Qed.

Lemma append_empty_r (s : string) : s ++ "" = s.
Proof. induction s as [|c s IH]; cbn; [reflexivity | now rewrite IH]. Qed.

Lemma format_search_result_lines (result : dict) :
  format_search_result result =
  (h <- heading result ;;
   shown <- Json.slice_to 200 (description_value result) ;;
   Return (h ++ "Description: " ++ Json.str shown ++ "..." ++ Text.nl
             ++ cover_line result)).
Proof.
  unfold format_search_result, heading, cover_line, description_value.
  cbv zeta.
  destruct (Json.join ", " (Dict.get result "author_name" _)) as [a|e];
    cbn [bind]; [|reflexivity].
  destruct (Json.join ", " (Dict.get result "publisher" _)) as [p|e];
    cbn [bind]; [|reflexivity].
  destruct (Json.join ", " (Dict.get result "isbn" _)) as [i|e];
    cbn [bind]; [|reflexivity].
  destruct (Json.slice_to 200 _) as [shown|e]; cbn [bind]; [|reflexivity].
  destruct (Json.truthy _); f_equal; rewrite ?append_empty_r;
    repeat (rewrite !append_assoc; cbn [append]); reflexivity.
Qed.

Lemma lookup_remove_other (V : Type) (d : list (string * V)) (k k' : string) :
  k' <> k -> Dict.lookup (Dict.remove d k) k' = Dict.lookup d k'.
Proof.
  intros Hne. induction d as [|[k0 v] d IH]; [reflexivity|].
  unfold Dict.remove in *. cbn [filter fst Dict.lookup].
  destruct (String.eqb_spec k k0) as [->|Hk]; cbn [negb Dict.lookup].
  - apply String.eqb_neq in Hne. now rewrite Hne.
  - now rewrite IH.
Qed.

Lemma lookup_remove_same (V : Type) (d : list (string * V)) (k : string) :
  Dict.lookup (Dict.remove d k) k = None.
Proof.
  induction d as [|[k0 v] d IH]; [reflexivity|].
  unfold Dict.remove in *. cbn [filter fst].
  destruct (String.eqb_spec k k0) as [->|Hk]; cbn [negb Dict.lookup]; [exact IH|].
  apply String.eqb_neq in Hk. now rewrite Hk.
Qed.

Lemma get_remove_other (V : Type) (d : list (string * V)) (k k' : string) (dflt : V) :
  k' <> k -> Dict.get (Dict.remove d k) k' dflt = Dict.get d k' dflt.
Proof. intros H. unfold Dict.get. now rewrite lookup_remove_other. Qed.

Lemma lookup_app_absent (V : Type) (d : list (string * V)) (k k' : string) (v : V) :
  Dict.lookup d k = None ->
  Dict.lookup (d ++ [(k, v)])%list k' =
  if String.eqb k' k then Some v else Dict.lookup d k'.
Proof.
  induction d as [|[k0 v0] d IH]; cbn [app Dict.lookup]; [reflexivity|].
  destruct (String.eqb_spec k k0) as [->|Hk]; [discriminate|].
  intros Hd. rewrite (IH Hd).
  destruct (String.eqb_spec k' k0) as [->|Hk']; [|reflexivity].
  apply not_eq_sym, String.eqb_neq in Hk. now rewrite Hk.
Qed.

(** An absent key read with a default reads the same once the default
    is stored under it, and every other read is unchanged. *)
Lemma get_app_absent (V : Type) (d : list (string * V)) (k k' : string) (v dflt : V) :
  Dict.lookup d k = None ->
  Dict.get (d ++ [(k, v)])%list k' dflt =
  if String.eqb k' k then v else Dict.get d k' dflt.
Proof.
  intros H. unfold Dict.get. rewrite (@lookup_app_absent _ d k k' v H).
  destruct (String.eqb k' k); reflexivity.
Qed.

(** ** C10 *)

(** C10: a cover identifier that is falsy, the number 0 in particular,
    is treated as no cover identifier at all.  The summary is the one of
    the record without the key [cover_i], and it ends with the
    description line: there is no cover line. *)
Theorem C10_falsy_cover_is_no_cover :
  forall (result : dict) (cover_id : json),
    Dict.lookup result "cover_i" = Some cover_id ->
    Json.truthy cover_id = false ->
    format_search_result result = format_search_result (Dict.remove result "cover_i") /\
    format_search_result result =
      (h <- heading result ;;
       shown <- Json.slice_to 200 (description_value result) ;;
       Return (h ++ "Description: " ++ Json.str shown ++ "..." ++ Text.nl)).
Proof.
  intros result cover_id Hc Hf.
  assert (Hline : cover_line result = "").
  { unfold cover_line, Dict.get. now rewrite Hc, Hf. }
  assert (Hline' : cover_line (Dict.remove result "cover_i") = "").
  { unfold cover_line, Dict.get. now rewrite lookup_remove_same. }
  rewrite !format_search_result_lines, Hline, Hline'.
  unfold heading, description_value.
  rewrite !get_remove_other by discriminate.
  split; [reflexivity|].
  destruct (heading result) as [h|e] eqn:Hh; unfold heading in Hh; rewrite Hh;
    cbn [bind]; [|reflexivity].
  destruct (Json.slice_to 200 _); cbn [bind]; [|reflexivity].
  now rewrite append_empty_r.
Qed.

Lemma C10_falsy_cover_is_no_cover_witness :
  format_search_result dune_without_cover
  = format_search_result
      [("title", JStr "Dune"); ("author_name", JList [JStr "Frank Herbert"])] /\
  format_search_result dune_without_cover
  = Return ("Title: Dune" ++ Text.nl ++
            "Author(s): Frank Herbert" ++ Text.nl ++
            "First Published: Unknown Year" ++ Text.nl ++
            "Publisher(s): Unknown Publisher" ++ Text.nl ++
            "ISBN(s): Unknown ISBN" ++ Text.nl ++
            "Description: No description available..." ++ Text.nl).
Proof.
  exact (@C10_falsy_cover_is_no_cover dune_without_cover (JInt 0) eq_refl eq_refl).
Defined.

(** ** C4 *)

Lemma description_source_value (result : dict) (text : string) :
  description_source result text -> description_value result = JStr text.
Proof.
  unfold description_value, Dict.get.
  intros [H|s H|d s H Hv|d H Hv]; rewrite H; cbv zeta; try reflexivity;
    now rewrite Hv.
Qed.

Lemma slice_to_prefix (n : nat) (s : string) :
  exists rest, s = Text.slice_to n s ++ rest.
Proof.
  unfold Text.slice_to. revert n; induction s as [|c s IH]; intros [|n]; cbn.
  - now exists "".
  - now exists "".
  - now exists (String c s).
  - destruct (IH n) as [rest Hr]. exists rest. now rewrite <- Hr.
Qed.

Lemma slice_to_length (n : nat) (s : string) :
  String.length (Text.slice_to n s) = Nat.min n (String.length s).
Proof.
  unfold Text.slice_to. revert n; induction s as [|c s IH]; intros [|n]; cbn;
    try reflexivity.
  now rewrite IH.
Qed.

Lemma slice_to_short (n : nat) (s : string) :
  String.length s <= n -> Text.slice_to n s = s.
Proof.
  unfold Text.slice_to. revert n; induction s as [|c s IH]; intros [|n]; cbn;
    try reflexivity; try lia.
  intros H. rewrite IH by lia. reflexivity.
Qed.

(** C4: when the description is absent, text, or an object (whose text
    is under [value], the default standing in when that key is
    missing), the description line is the first 200 characters of that
    text followed by [...], whatever the length of the text: the shown
    part is a prefix of the text of length [min 200 (length text)], and
    a text of at most 200 characters is shown whole, still followed by
    [...]. *)
Theorem C4_description_line :
  forall (result : dict) (text h : string),
    description_source result text ->
    heading result = Return h ->
    format_search_result result
    = Return (h ++ "Description: " ++ Text.slice_to 200 text ++ "..." ++ Text.nl
                ++ cover_line result) /\
    (exists rest, text = Text.slice_to 200 text ++ rest) /\
    String.length (Text.slice_to 200 text) = Nat.min 200 (String.length text) /\
    (String.length text <= 200 -> Text.slice_to 200 text = text).
Proof.
  intros result text h Hsrc Hh.
  rewrite format_search_result_lines, Hh, (description_source_value Hsrc).
  cbn [bind Json.slice_to Json.str].
  split; [reflexivity|].
  split; [apply slice_to_prefix|].
  split; [apply slice_to_length | apply slice_to_short].
Qed.

Lemma C4_description_line_witness :
  format_search_result short_description
  = Return (("Title: Dune" ++ Text.nl ++
             "Author(s): Unknown Author" ++ Text.nl ++
             "First Published: Unknown Year" ++ Text.nl ++
             "Publisher(s): Unknown Publisher" ++ Text.nl ++
             "ISBN(s): Unknown ISBN" ++ Text.nl)
            ++ "Description: " ++ Text.slice_to 200 "A desert planet." ++ "..."
            ++ Text.nl ++ cover_line short_description) /\
  Text.slice_to 200 "A desert planet." = "A desert planet.".
Proof.
  assert (Hsrc : description_source short_description "A desert planet.").
  { eapply source_structured; reflexivity. }
  destruct (@C4_description_line short_description "A desert planet." _ Hsrc eq_refl)
    as (Hout & _ & _ & Hshort).
  split; [exact Hout|]. apply Hshort. cbn. lia.
Defined.

(** ** C3 *)

Lemma texts_returns (xs : list json) :
  forallb Shape.is_text xs = true -> exists l, Json.texts xs = Return l.
Proof.
  induction xs as [|x xs IH]; cbn; [eauto|].
  intros H. apply andb_true_iff in H as [Hx Hxs].
  destruct x; try discriminate Hx. destruct (IH Hxs) as [l ->]. cbn. eauto.
Qed.

Lemma join_returns (sep : string) (result : dict) (k : string) (ds : list string) :
  Shape.when_present Shape.text_list result k = true ->
  exists s, Json.join sep (Dict.get result k (JList (map JStr ds))) = Return s.
Proof.
  unfold Shape.when_present, Dict.get.
  destruct (Dict.lookup result k) as [v|].
  - destruct v; try discriminate. cbn [Shape.text_list Json.join].
    intros H. destruct (texts_returns _ H) as [l ->]. cbn. eauto.
  - intros _. cbn [Json.join].
    assert (H : Json.texts (map JStr ds) = Return ds).
    { induction ds as [|d ds IH]; cbn; [reflexivity|]. now rewrite IH. }
    rewrite H. cbn. eauto.
Qed.

Lemma description_value_text (result : dict) :
  Shape.when_present Shape.description result "description" = true ->
  exists text, description_source result text.
Proof.
  unfold Shape.when_present.
  destruct (Dict.lookup result "description") as [v|] eqn:Hd.
  - destruct v as [| | | |s| |d]; try discriminate; cbn [Shape.description].
    + intros _. exists s. now apply source_plain.
    + destruct (Dict.lookup d "value") as [v|] eqn:Hv.
      * destruct v; try discriminate. intros _. eexists.
        eapply source_structured; eassumption.
      * intros _. eexists. eapply source_structured_default; eassumption.
  - intros _. eexists. now apply source_absent.
Qed.

Lemma texts_of_text (xs : list json) :
  forallb Shape.is_text xs = true ->
  Json.texts xs = Return (map (fun x => match x with JStr s => s | _ => "" end) xs).
Proof.
  induction xs as [|x xs IH]; cbn [forallb Json.texts map]; [reflexivity|].
  intros H. apply andb_true_iff in H as [Hx Hxs].
  destruct x; try discriminate Hx. now rewrite (IH Hxs).
Qed.

Lemma join_shown (result : dict) (k default : string) :
  Shape.when_present Shape.text_list result k = true ->
  Json.join ", " (Dict.get result k (JList [JStr default]))
  = Return (shown_as result k listed default).
Proof.
  unfold Shape.when_present, Dict.get, shown_as.
  destruct (Dict.lookup result k) as [v|]; [|reflexivity].
  destruct v; try discriminate. cbn [Shape.text_list Json.join listed].
  intros H. now rewrite (@texts_of_text _ H).
Qed.

Lemma str_shown (result : dict) (k default : string) :
  Json.str (Dict.get result k (JStr default)) = shown_as result k Json.str default.
Proof. unfold Dict.get, shown_as. destruct (Dict.lookup result k); reflexivity. Qed.

Lemma description_shown (result : dict) :
  Shape.when_present Shape.description result "description" = true ->
  description_value result
  = JStr (shown_as result "description" described "No description available").
Proof.
  unfold Shape.when_present, description_value, Dict.get, shown_as.
  destruct (Dict.lookup result "description") as [v|]; [|reflexivity].
  destruct v as [| | | |s| |d]; try discriminate; cbn [Shape.description described];
    [reflexivity|].
  destruct (Dict.lookup d "value") as [v|]; [|reflexivity].
  destruct v; try discriminate. reflexivity.
Qed.

Lemma cover_line_text (result : dict) : cover_line result = cover_text result.
Proof.
  unfold cover_line, cover_text, Dict.get.
  destruct (Dict.lookup result "cover_i") as [v|]; [|reflexivity].
  destruct (Json.truthy v); [|reflexivity].
  change (Text.format1 COVER_URL (Json.str v))
    with ("https://covers.openlibrary.org/b/id/" ++ Json.str v ++ "-L.jpg").
  repeat (rewrite !append_assoc; cbn [append]). reflexivity.
Qed.

(** The summary of a record of the documented shape, field by field. *)
Lemma format_well_shaped (result : dict) :
  Shape.well_shaped result = true ->
  format_search_result result
  = Return ("Title: " ++ shown_as result "title" Json.str "Unknown Title" ++ Text.nl ++
            "Author(s): " ++ shown_as result "author_name" listed "Unknown Author"
              ++ Text.nl ++
            "First Published: "
              ++ shown_as result "first_publish_year" Json.str "Unknown Year" ++ Text.nl ++
            "Publisher(s): " ++ shown_as result "publisher" listed "Unknown Publisher"
              ++ Text.nl ++
            "ISBN(s): " ++ shown_as result "isbn" listed "Unknown ISBN" ++ Text.nl ++
            "Description: "
              ++ Text.slice_to 200
                   (shown_as result "description" described "No description available")
              ++ "..." ++ Text.nl ++
            cover_text result).
Proof.
  intros H. unfold Shape.well_shaped in H.
  apply andb_true_iff in H as [H Hd].
  apply andb_true_iff in H as [H Hi].
  apply andb_true_iff in H as [Ha Hp].
  rewrite format_search_result_lines. unfold heading.
  rewrite (@join_shown _ _ _ Ha), (@join_shown _ _ _ Hp), (@join_shown _ _ _ Hi).
  rewrite (@description_shown _ Hd), !str_shown, cover_line_text.
  cbn [bind Json.slice_to Json.str]. f_equal.
  repeat (rewrite !append_assoc; cbn [append]). reflexivity.
Qed.

(** C3 (amended): a default stands in for a field that is absent, not
    for one that is present and empty.  The empty record gives the
    summary of all defaults, with no cover line.  For every record
    whose joined fields, when present, are lists of text and whose
    description, when present, is text or an object with text (or
    nothing) under [value], formatting returns, and each line shows the
    field as it is when the record has it (the text of the title and of
    the year, the items of a list joined by a comma and a space, the
    first 200 characters of the description) and the default when the
    record lacks it; so an empty title gives the line [Title: ] and an
    empty list of authors the line [Author(s): ].  And a record with an
    absent field gives the summary it gives once the field's default is
    stored in it. *)
Theorem C3_defaults_for_absent_fields :
  format_search_result [] = Return ALL_DEFAULTS /\
  (forall result : dict,
     Shape.well_shaped result = true ->
     format_search_result result
     = Return ("Title: " ++ shown_as result "title" Json.str "Unknown Title" ++ Text.nl ++
               "Author(s): " ++ shown_as result "author_name" listed "Unknown Author"
                 ++ Text.nl ++
               "First Published: "
                 ++ shown_as result "first_publish_year" Json.str "Unknown Year"
                 ++ Text.nl ++
               "Publisher(s): " ++ shown_as result "publisher" listed "Unknown Publisher"
                 ++ Text.nl ++
               "ISBN(s): " ++ shown_as result "isbn" listed "Unknown ISBN" ++ Text.nl ++
               "Description: "
                 ++ Text.slice_to 200
                      (shown_as result "description" described "No description available")
                 ++ "..." ++ Text.nl ++
               cover_text result)) /\
  (forall result : dict,
     Shape.well_shaped result = true ->
     Dict.lookup result "title" = Some (JStr "") ->
     Dict.lookup result "author_name" = Some (JList []) ->
     format_search_result result
     = Return ("Title: " ++ Text.nl ++
               "Author(s): " ++ Text.nl ++
               "First Published: "
                 ++ shown_as result "first_publish_year" Json.str "Unknown Year"
                 ++ Text.nl ++
               "Publisher(s): " ++ shown_as result "publisher" listed "Unknown Publisher"
                 ++ Text.nl ++
               "ISBN(s): " ++ shown_as result "isbn" listed "Unknown ISBN" ++ Text.nl ++
               "Description: "
                 ++ Text.slice_to 200
                      (shown_as result "description" described "No description available")
                 ++ "..." ++ Text.nl ++
               cover_text result)) /\
  (forall (result : dict) (k : string) (default : json),
     In (k, default) DEFAULTS ->
     Dict.lookup result k = None ->
     format_search_result (result ++ [(k, default)])%list
     = format_search_result result) /\
  (forall result : dict,
     Shape.well_shaped result = true ->
     exists summary, format_search_result result = Return summary).
Proof.
  split; [reflexivity|].
  split; [exact format_well_shaped|].
  split; [|split].
  - intros result H Ht Ha. rewrite (@format_well_shaped _ H).
    unfold shown_as at 1 2. rewrite Ht, Ha. reflexivity.
  - intros result k default Hin Hnone.
    unfold format_search_result.
    rewrite !(@get_app_absent _ result k _ default _ Hnone).
    cbn [In DEFAULTS] in Hin.
    repeat (destruct Hin as [[= <- <-]|Hin];
            [unfold Dict.get; rewrite Hnone; reflexivity|]).
    destruct Hin.
  - intros result H. rewrite (@format_well_shaped _ H). eauto.
Qed.

Lemma C3_defaults_for_absent_fields_witness :
  format_search_result [("title", JStr ""); ("isbn", JList [JStr "0441013597"; JStr "9780441013593"])]
  = Return ("Title: " ++ Text.nl ++
            "Author(s): Unknown Author" ++ Text.nl ++
            "First Published: Unknown Year" ++ Text.nl ++
            "Publisher(s): Unknown Publisher" ++ Text.nl ++
            "ISBN(s): 0441013597, 9780441013593" ++ Text.nl ++
            "Description: No description available..." ++ Text.nl) /\
  format_search_result ([("title", JStr "Dune")] ++ [("isbn", JList [JStr "Unknown ISBN"])])%list
  = format_search_result [("title", JStr "Dune")] /\
  exists summary, format_search_result short_description = Return summary.
Proof.
  destruct C3_defaults_for_absent_fields as (_ & Hshown & _ & Habsent & Hreturns).
  split; [|split].
  - exact (Hshown [("title", JStr ""); ("isbn", JList [JStr "0441013597"; JStr "9780441013593"])]
             eq_refl).
  - apply Habsent; [do 4 right; left; reflexivity | reflexivity].
  - apply Hreturns. reflexivity.
Defined.

(** C3 as stated fails.  An empty title and an empty list of authors
    are shown as they are, empty, not replaced by the defaults; and a
    record whose description or list of authors is [null] makes the
    formatter raise. *)
Lemma C3_counterexample :
  format_search_result [("title", JStr ""); ("author_name", JList [])]
  = Return ("Title: " ++ Text.nl ++
            "Author(s): " ++ Text.nl ++
            "First Published: Unknown Year" ++ Text.nl ++
            "Publisher(s): Unknown Publisher" ++ Text.nl ++
            "ISBN(s): Unknown ISBN" ++ Text.nl ++
            "Description: No description available..." ++ Text.nl) /\
  format_search_result [("description", JNull)] = Raise TypeError /\
  format_search_result [("author_name", JNull)] = Raise TypeError.
Proof. repeat split. Qed.

(* ================================================================= *)
(** * Further properties *)

(** ** The query, entry by entry *)

Lemma lookup_set (V : Type) (d : list (string * V)) (k k' : string) (v : V) :
  Dict.lookup (Dict.set d k v) k' =
  if String.eqb k' k then Some v else Dict.lookup d k'.
Proof.
  induction d as [|[k0 v0] d IH]; cbn [Dict.set Dict.lookup]; [reflexivity|].
  destruct (String.eqb_spec k k0) as [->|Hk]; cbn [Dict.lookup].
  - destruct (String.eqb k' k0); reflexivity.
  - rewrite IH. destruct (String.eqb_spec k' k0) as [->|Hk']; [|reflexivity].
    apply not_eq_sym, String.eqb_neq in Hk. now rewrite Hk.
Qed.

Lemma bind_returns (A B : Type) (m : outcome A) (k : A -> outcome B) (b : B) :
  bind m k = Return b -> exists a, m = Return a /\ k a = Return b.
Proof. destruct m as [a|e]; cbn [bind]; [eauto | discriminate]. Qed.

Lemma build_params_split (b : bound) :
  build_params b = (ps <- before_sort b ;; Return (sort_statement (sort b) ps)).
Proof.
  unfold build_params, before_sort, sort_statement.
  destruct (negb (any_given b)); [reflexivity|]. cbv zeta.
  repeat match goal with
         | |- bind ?m _ = bind (bind ?m _) _ => destruct m; cbn [bind]; [|reflexivity]
         end.
  reflexivity.
Qed.

Lemma criterion_statement (ps ps' : params) (name : string) (v : argval) :
  (if Arg.truthy v
   then x <- Arg.replace v " " "+" ;; Return (Dict.set ps name x)
   else Return ps) = Return ps' ->
  (Arg.truthy v = false /\ ps' = ps) \/
  (Arg.truthy v = true /\
   exists s, v = VStr s /\ ps' = Dict.set ps name (VStr (Text.replace " " "+" s))).
Proof.
  destruct (Arg.truthy v); [|intros [= <-]; auto].
  destruct v; cbn [Arg.replace bind]; try discriminate.
  intros [= <-]. right. eauto.
Qed.

(** The entries of the query before the sort is looked at. *)
Lemma before_sort_entries (b : bound) (p : params) :
  before_sort b = Return p ->
  any_given b = true /\
  criterion_entry (title b) (Dict.lookup p "title") /\
  criterion_entry (author b) (Dict.lookup p "author") /\
  criterion_entry (isbn b) (Dict.lookup p "isbn") /\
  (exists joined, Arg.join "," (fields b) = Return joined /\
                  Dict.lookup p "fields" = Some (VStr joined)) /\
  (exists z, limit b = VInt z /\ Dict.lookup p "limit" = Some (VInt (Z.min z 100))) /\
  Dict.lookup p "page" = Some (page b) /\
  Dict.lookup p "sort" = None.
Proof.
  unfold before_sort. destruct (any_given b); cbn [negb]; [|discriminate].
  cbv zeta. intros H. split; [reflexivity|].
  apply bind_returns in H as (p1 & H1 & H). apply criterion_statement in H1.
  apply bind_returns in H as (p2 & H2 & H). apply criterion_statement in H2.
  apply bind_returns in H as (p3 & H3 & H). apply criterion_statement in H3.
  apply bind_returns in H as (joined & Hj & H).
  apply bind_returns in H as (capped & Hc & H).
  injection H as <-.
  assert (Hz : exists z, limit b = VInt z /\ capped = VInt (Z.min z 100)).
  { destruct (limit b) as [| |z| |]; try discriminate Hc. injection Hc as <-.
    exists z. split; [reflexivity|]. f_equal. destruct (Z.ltb_spec 100 z); lia. }
  unfold criterion_entry.
  destruct H1 as [[Ht ->]|[Ht (s1 & E1 & ->)]];
    destruct H2 as [[Ha ->]|[Ha (s2 & E2 & ->)]];
    destruct H3 as [[Hi ->]|[Hi (s3 & E3 & ->)]];
    rewrite Ht, Ha, Hi, !lookup_set; cbn [String.eqb Ascii.eqb Bool.eqb Dict.lookup];
    (repeat split; eauto);
    destruct Hz as (z & Hl & ->); eauto.
Qed.

Lemma lookup_sort_statement (v : argval) (ps : params) (k : string) :
  Dict.lookup (sort_statement v ps) k =
  if String.eqb k "sort" && recognised_sort v then Some v else Dict.lookup ps k.
Proof.
  unfold sort_statement, recognised_sort.
  destruct (Arg.eqb v (VStr "new")) eqn:E1;
    [apply arg_eqb_eq in E1; subst v; rewrite lookup_set;
     destruct (String.eqb k "sort"); reflexivity|].
  destruct (Arg.eqb v (VStr "old")) eqn:E2;
    [apply arg_eqb_eq in E2; subst v; rewrite lookup_set;
     destruct (String.eqb k "sort"); reflexivity|].
  destruct (Arg.eqb v (VStr "title")) eqn:E3;
    [apply arg_eqb_eq in E3; subst v; rewrite lookup_set;
     destruct (String.eqb k "sort"); reflexivity|].
  now rewrite andb_false_r.
Qed.

(** Every entry of a query that was built. *)
Lemma build_params_entries (b : bound) (p : params) :
  build_params b = Return p ->
  any_given b = true /\
  criterion_entry (title b) (Dict.lookup p "title") /\
  criterion_entry (author b) (Dict.lookup p "author") /\
  criterion_entry (isbn b) (Dict.lookup p "isbn") /\
  (exists joined, Arg.join "," (fields b) = Return joined /\
                  Dict.lookup p "fields" = Some (VStr joined)) /\
  (exists z, limit b = VInt z /\ Dict.lookup p "limit" = Some (VInt (Z.min z 100))) /\
  Dict.lookup p "page" = Some (page b) /\
  Dict.lookup p "sort" = (if recognised_sort (sort b) then Some (sort b) else None).
Proof.
  rewrite build_params_split. intros H.
  apply bind_returns in H as (ps & Hps & [= <-]).
  apply before_sort_entries in Hps as (Hany & Ht & Ha & Hi & Hf & Hl & Hp & Hs).
  rewrite !lookup_sort_statement. cbn [String.eqb Ascii.eqb Bool.eqb andb].
  rewrite Hs. repeat split; assumption.
Qed.

(** X1: the sort never stands in the way of a query.  If the query of
    some criteria is built, it is built with any other value of the
    sort as well, unrecognised ones included; it then carries a sort
    entry, the value itself, exactly when the value is [new], [old] or
    [title], and all its other entries are the same. *)
Theorem sort_is_sent_only_when_recognised :
  forall (b : bound) (p : params) (v : argval),
    build_params b = Return p ->
    exists p',
      build_params (with_sort b v) = Return p' /\
      Dict.lookup p' "sort" = (if recognised_sort v then Some v else None) /\
      (forall k, k <> "sort" -> Dict.lookup p' k = Dict.lookup p k).
Proof.
  intros b p v H. rewrite build_params_split in *.
  apply bind_returns in H as (ps & Hps & [= <-]).
  assert (Hsame : before_sort (with_sort b v) = before_sort b) by reflexivity.
  rewrite Hsame, Hps. cbn [bind with_sort sort]. eexists. split; [reflexivity|].
  apply before_sort_entries in Hps as (_ & _ & _ & _ & _ & _ & _ & Hs).
  split.
  - rewrite lookup_sort_statement, Hs. reflexivity.
  - intros k Hk. rewrite !lookup_sort_statement.
    apply String.eqb_neq in Hk. rewrite Hk. reflexivity.
Qed.

Lemma sort_is_sent_only_when_recognised_witness :
  exists p',
    build_params (with_sort (with_limit 5) (VStr "newest")) = Return p' /\
    Dict.lookup p' "sort" = None /\
    (forall k, k <> "sort" ->
       Dict.lookup p' k
       = Dict.lookup [("title", VStr "dune");
                      ("fields", VStr "title,author_name,first_publish_year,publisher,isbn,cover_i,description");
                      ("limit", VInt 5); ("page", VInt 1)] k).
Proof.
  exact (@sort_is_sent_only_when_recognised (with_limit 5) _ (VStr "newest") eq_refl).
Defined.

Lemma replace_space_leaves_none (s : string) :
  Text.mem " " (Text.replace " " "+" s) = false.
Proof.
  induction s as [|c s IH]; [reflexivity|]. cbn [Text.replace].
  destruct (Ascii.eqb c " ") eqn:E; cbn [append Text.mem]; rewrite IH.
  - reflexivity.
  - rewrite Ascii.eqb_sym, E. reflexivity.
Qed.

(** X2: no text criterion reaches the catalogue with a space in it.
    Whatever the criteria, when the query is built its title, author and
    ISBN entries are text without a space character. *)
Theorem criteria_are_sent_without_spaces :
  forall (b : bound) (p : params) (name : string) (v : argval),
    build_params b = Return p ->
    In name ["title"; "author"; "isbn"] ->
    Dict.lookup p name = Some v ->
    exists s, v = VStr s /\ Text.mem " " s = false.
Proof.
  intros b p name v H Hin Hv.
  apply build_params_entries in H as (_ & Ht & Ha & Hi & _).
  assert (Hentry : exists w, criterion_entry w (Dict.lookup p name)).
  { destruct Hin as [<-|[<-|[<-|[]]]]; eauto. }
  destruct Hentry as [w Hw]. unfold criterion_entry in Hw.
  destruct (Arg.truthy w); [|congruence].
  destruct Hw as (s & _ & Hs). rewrite Hv in Hs. injection Hs as ->.
  eexists. split; [reflexivity | apply replace_space_leaves_none].
Qed.

Lemma criteria_are_sent_without_spaces_witness :
  exists s, VStr "Ursula++Le+Guin" = VStr s /\ Text.mem " " s = false.
Proof.
  apply (@criteria_are_sent_without_spaces (by_author "Ursula  Le Guin") _ "author"
           (VStr "Ursula++Le+Guin") eq_refl).
  - right; left; reflexivity.
  - reflexivity.
Defined.

(** ** Sessions *)

Lemma search_step (remote : nat -> params -> response) (st : state) (c : call) :
  step remote st c (search_books remote st c).
Proof.
  unfold search_books, Lru.wrapper, Key.make_key. fold (hashable_call c).
  destruct (hashable_call c) eqn:Hh; [|now constructor].
  destruct (Lru.cache_get (cache st) c) as [v|] eqn:Hg; [now constructor|].
  unfold search_books_body.
  destruct (descriptor c) as [p|e] eqn:Hd; [|now constructor].
  unfold request. destruct (remote _ p) as [j|msg] eqn:Hr; now constructor.
Qed.

(** An invariant of the state that every call keeps holds after every
    session. *)
Lemma run_invariant (remote : nat -> params -> response) (Inv : state -> Prop) :
  (forall st c, Inv st -> Inv (fst (search_books remote st c))) ->
  forall cs st, Inv st -> Inv (run remote st cs).
Proof.
  intros Hstep cs. induction cs as [|c cs IH]; intros st H; [exact H|].
  apply IH, Hstep, H.
Qed.

Lemma descriptor_identified (c : call) (p : params) :
  descriptor c = Return p ->
  identified p = true /\
  exists z, Dict.lookup p "limit" = Some (VInt z) /\ (z <= 100)%Z.
Proof.
  unfold descriptor. intros H. apply bind_returns in H as (b & _ & H).
  apply build_params_entries in H as (Hany & Ht & Ha & Hi & _ & (z & _ & Hl) & _).
  split.
  - unfold any_given in Hany. cbn [existsb] in Hany. unfold identified. cbn [existsb].
    unfold criterion_entry in *.
    destruct (Arg.truthy (title b)); [destruct Ht as (? & _ & ->); reflexivity|].
    destruct (Arg.truthy (author b));
      [destruct Ha as (? & _ & ->); now rewrite orb_true_r|].
    destruct (Arg.truthy (isbn b));
      [destruct Hi as (? & _ & ->); now rewrite !orb_true_r|].
    discriminate Hany.
  - exists (Z.min z 100). split; [exact Hl | lia].
Qed.

(** X3: in every session, every request sent to the catalogue names a
    title, an author or an ISBN, and asks for an integer number of
    results that is at most 100. *)
Theorem every_request_is_identified_and_capped :
  forall (remote : nat -> params -> response) (history : list call) (p : params),
    In p (sent (outside (run remote initial history))) ->
    identified p = true /\
    exists z, Dict.lookup p "limit" = Some (VInt z) /\ (z <= 100)%Z.
Proof.
  intros remote history.
  apply (run_invariant remote
           (fun st => forall p, In p (sent (outside st)) ->
              identified p = true /\
              exists z, Dict.lookup p "limit" = Some (VInt z) /\ (z <= 100)%Z)).
  - intros st c Inv p.
    destruct (search_step remote st c); cbn [fst outside sent]; auto;
      intros Hin; apply in_app_or in Hin as [Hin|[<-|[]]]; auto;
      eapply descriptor_identified; eassumption.
  - intros p [].
Qed.

Lemma every_request_is_identified_and_capped_witness :
  identified [("title", VStr "dune");
              ("fields", VStr "title,author_name,first_publish_year,publisher,isbn,cover_i,description");
              ("limit", VInt 100); ("page", VInt 1)] = true /\
  exists z, Dict.lookup [("title", VStr "dune");
                         ("fields", VStr "title,author_name,first_publish_year,publisher,isbn,cover_i,description");
                         ("limit", VInt 100); ("page", VInt 1)] "limit" = Some (VInt z) /\
            (z <= 100)%Z.
Proof.
  apply (@every_request_is_identified_and_capped no_match
           [nothing_given;
            {| self := 0; args := [];
               kwds := [("title", VStr "dune"); ("limit", VInt 500)] |}]).
  left. reflexivity.
Defined.

(** X4: a call is answered from the memo only if the very same call was
    made earlier in the session: the same instance and the same
    arguments, written the same way.  A call that differs in any of
    these from all earlier ones is never counted as a hit. *)
Theorem hit_only_after_the_same_call :
  forall (remote : nat -> params -> response) (history : list call) (c : call),
    let st := run remote initial history in
    hits (fst (search_books remote st c)) = S (hits st) ->
    In c history.
Proof.
  intros remote history c st Hhit.
  assert (Hkeys : forall k, In k (keys st) -> In k history).
  { subst st. clear Hhit c.
    assert (G : forall cs st0 k, In k (keys (run remote st0 cs)) ->
                                 In k (keys st0) \/ In k cs).
    { induction cs as [|c cs IH]; intros st0 k Hk; [auto|].
      cbn [run fold_left] in Hk. apply IH in Hk as [Hk|Hk]; [|right; right; exact Hk].
      revert Hk. unfold keys.
      destruct (search_step remote st0 c); cbn [fst cache]; auto;
        rewrite ?map_app; cbn [map fst].
      - intros Hk. apply in_app_or in Hk as [Hk|[<-|[]]]; [|right; left; reflexivity].
        left. apply in_map_iff in Hk as (kv & <- & Hkv).
        apply filter_In in Hkv as [Hkv _]. now apply in_map.
      - destruct (MAXSIZE <=? length (cache st0))%nat; rewrite map_app; cbn [map fst];
          intros Hk; apply in_app_or in Hk as [Hk|[<-|[]]];
          try (right; left; reflexivity); left; [|exact Hk].
        destruct (cache st0); [destruct Hk | right; exact Hk]. }
    intros k Hk. apply G in Hk as [[]|Hk]. exact Hk. }
  apply Hkeys. revert Hhit.
  destruct (search_step remote st c) as [| v _ Hg | | |]; cbn [fst hits];
    try (intros Hn; exfalso; lia).
  intros _. apply cache_get_some_in in Hg. unfold keys.
  apply in_map_iff. exists (c, v). auto.
Qed.

Lemma hit_only_after_the_same_call_witness :
  In hobbit [hobbit; by_title "Dune"].
Proof.
  exact (@hit_only_after_the_same_call no_match [hobbit; by_title "Dune"] hobbit eq_refl).
Defined.

(** X5: a call sends at most one request, and nothing is retried.  It
    sends exactly one when its key can be built, the memo does not hold
    it and its query is built, whether the catalogue then answers or
    fails; in every other case it sends none.  Requests already sent
    stay as they are. *)
Theorem at_most_one_request_per_call :
  forall (remote : nat -> params -> response) (st : state) (c : call),
    sent (outside (fst (search_books remote st c)))
    = (sent (outside st)
       ++ (if hashable_call c
           then match Lru.cache_get (cache st) c, descriptor c with
                | None, Return p => [p]
                | _, _ => []
                end
           else []))%list.
Proof.
  intros remote st c.
  destruct (search_step remote st c) as [Hh|v Hh Hg|e Hh Hg Hd|p j Hh Hg Hd _|p msg Hh Hg Hd _];
    cbn [fst outside sent]; rewrite Hh, ?Hg, ?Hd, ?app_nil_r; reflexivity.
Qed.

(** X6: a line is printed exactly when the catalogue failed.  A call
    that raises [RequestException] prints one line, [API request
    failed: ] followed by the message of the exception; a call that
    returns, or raises anything else, prints nothing. *)
Theorem failure_is_reported_once :
  forall (remote : nat -> params -> response) (st : state) (c : call),
    stdout (outside (fst (search_books remote st c)))
    = (stdout (outside st)
       ++ match snd (search_books remote st c) with
          | Raise (RequestException msg) => [("API request failed: " ++ msg)%string]
          | _ => []
          end)%list.
Proof.
  intros remote st c.
  destruct (search_step remote st c) as [Hh|v Hh Hg|e Hh Hg Hd|p j Hh Hg Hd _|p msg Hh Hg Hd _];
    cbn [fst snd outside stdout]; rewrite ?app_nil_r; try reflexivity.
  assert (Hloc : raises_only not_request_exception (descriptor c))
    by (apply raises_only_descriptor; intros m; discriminate).
  destruct e; try (now rewrite app_nil_r). exfalso. exact (Hloc _ Hd msg eq_refl).
Qed.

Lemma search_keys_distinct (remote : nat -> params -> response) (st : state) (c : call) :
  NoDup (keys st) -> NoDup (keys (fst (search_books remote st c))).
Proof.
  intros Hnd. unfold keys in *.
  destruct (search_step remote st c) as [Hh|v Hh Hg|e Hh Hg Hd|p j Hh Hg Hd _|p msg Hh Hg Hd _];
    cbn [fst cache]; auto.
  - rewrite map_app, keys_unlink. cbn [map fst]. apply NoDup_snoc.
    + now apply NoDup_filter.
    + intros Hin. apply filter_In in Hin as [_ Hin].
      rewrite key_eqb_refl in Hin. discriminate.
  - apply cache_get_none in Hg.
    destruct (MAXSIZE <=? length (cache st))%nat; rewrite map_app; cbn [map fst];
      apply NoDup_snoc; auto.
    + rewrite map_tl. now apply NoDup_tl.
    + rewrite map_tl. intros Hin. apply Hg. now apply in_tl.
Qed.

(** X7: the memo never holds a call twice.  After every session its
    keys are pairwise distinct. *)
Theorem memo_keys_are_distinct :
  forall (remote : nat -> params -> response) (history : list call),
    NoDup (keys (run remote initial history)).
Proof.
  intros remote history.
  apply (run_invariant remote (fun st => NoDup (keys st))).
  - intros st c. apply search_keys_distinct.
  - constructor.
Qed.

(** X8: a hit refreshes the entry it uses, so the eviction is by recency
    of use, not by age.  When the memo is full and its oldest entry is
    hit, the next call that is new to the memo and returns evicts the
    second oldest entry; the entry that was hit stays, followed by the
    new one. *)
Theorem hit_spares_from_eviction :
  forall (remote : nat -> params -> response) (st : state)
         (oldest : call) (others : list call) (c : call),
    keys st = oldest :: others ->
    NoDup (keys st) ->
    length (keys st) = MAXSIZE ->
    hashable_call oldest = true ->
    ~ In c (keys st) ->
    let st1 := fst (search_books remote st oldest) in
    (exists j, snd (search_books remote st1 c) = Return j) ->
    hits st1 = S (hits st) /\
    keys (fst (search_books remote st1 c)) = (tl others ++ [oldest; c])%list.
Proof.
  intros remote st oldest others c Hkeys Hnd Hlen Hh Hnew st1 [j Hj].
  assert (Hin : In oldest (map fst (cache st))).
  { fold (keys st). rewrite Hkeys. left; reflexivity. }
  destruct (cache_get_in_keys _ _ Hin) as [v Hv].
  assert (Hk : Key.make_key oldest = Return oldest).
  { unfold Key.make_key. fold (hashable_call oldest). now rewrite Hh. }
  assert (Hst1 : st1 = {| cache := (Lru.unlink (cache st) oldest ++ [(oldest, v)])%list;
                          hits := S (hits st); misses := misses st;
                          outside := outside st |}).
  { subst st1. now rewrite (search_hit remote st Hk Hv). }
  assert (Hk1 : keys st1 = (others ++ [oldest])%list).
  { rewrite Hst1. unfold keys in *. cbn [cache]. rewrite map_app, keys_unlink, Hkeys.
    cbn [map fst filter]. rewrite key_eqb_refl. cbn [negb]. f_equal.
    rewrite Hkeys in Hnd. inversion Hnd as [|? ? Hout _]; subst.
    apply forallb_filter_id. apply forallb_forall. intros k Hkin.
    apply negb_true_iff, key_eqb_neq. intros <-. contradiction. }
  split; [now rewrite Hst1|].
  destruct (search_books remote st1 c) as [st2 r] eqn:Hs. cbn [snd] in Hj. subst r.
  cbn [fst]. apply search_returns in Hs as [_ [[Hg _]|[_ (p & _ & _ & ->)]]].
  - exfalso. apply cache_get_some_in in Hg. apply Hnew. rewrite Hkeys.
    assert (Hc : In c (keys st1)) by (unfold keys; apply in_map_iff; exists (c, j); auto).
    rewrite Hk1 in Hc. apply in_app_or in Hc as [Hc|[<-|[]]]; [right; exact Hc | left; reflexivity].
  - assert (Hfull : length (cache st1) = MAXSIZE).
    { transitivity (length (keys st1)); [unfold keys; now rewrite length_map|].
      rewrite Hk1, length_app. rewrite Hkeys in Hlen. cbn [length] in *. lia. }
    unfold keys at 1. cbn [cache]. rewrite Hfull, Nat.leb_refl, map_app, map_tl.
    fold (keys st1). rewrite Hk1. cbn [map fst].
    destruct others as [|k1 others].
    + exfalso. rewrite Hkeys in Hlen. cbn [length] in Hlen. unfold MAXSIZE in Hlen. lia.
    + cbn [app tl]. now rewrite <- app_assoc.
Qed.

Lemma hit_spares_from_eviction_witness :
  keys (fst (search_books no_match
               (fst (search_books no_match
                       (run no_match initial (map page_of (seq 0 100))) (page_of 0)))
               (page_of 100)))
  = (map page_of (seq 2 98) ++ [page_of 0; page_of 100])%list.
Proof.
  assert (Hkeys : keys (run no_match initial (map page_of (seq 0 100)))
                  = page_of 0 :: map page_of (seq 1 99)) by (vm_compute; reflexivity).
  assert (Hnd : NoDup (keys (run no_match initial (map page_of (seq 0 100))))).
  { rewrite Hkeys. apply (NoDup_map_inv descriptor), (page_of_distinct 100). }
  assert (Hlen : length (keys (run no_match initial (map page_of (seq 0 100)))) = MAXSIZE)
    by (rewrite Hkeys; reflexivity).
  assert (Hnew : ~ In (page_of 100) (keys (run no_match initial (map page_of (seq 0 100))))).
  { rewrite Hkeys.
    pose proof (page_of_distinct 101) as H. apply NoDup_map_inv in H.
    change (seq 0 101) with (seq 0 (100 + 1)) in H. rewrite seq_app, map_app in H.
    cbn [seq map Nat.add] in H. apply NoDup_remove_2 in H.
    rewrite app_nil_r in H. exact H. }
  assert (Hret : exists j,
             snd (search_books no_match
                    (fst (search_books no_match
                            (run no_match initial (map page_of (seq 0 100))) (page_of 0)))
                    (page_of 100)) = Return j)
    by (eexists; vm_compute; reflexivity).
  exact (proj2 (@hit_spares_from_eviction no_match _ (page_of 0) (map page_of (seq 1 99))
                  (page_of 100) Hkeys Hnd Hlen eq_refl Hnew Hret)).
Defined.

Lemma run_counts (remote : nat -> params -> response) (cs : list call) (st : state) :
  hits (run remote st cs) + misses (run remote st cs)
  = hits st + misses st + length (filter hashable_call cs).
Proof.
  revert st; induction cs as [|c cs IH]; intros st; [cbn; lia|].
  cbn [run fold_left filter]. fold (run remote (fst (search_books remote st c)) cs).
  rewrite IH.
  destruct (search_step remote st c) as [Hh|v Hh Hg|e Hh Hg Hd|p j Hh Hg Hd _|p msg Hh Hg Hd _];
    rewrite Hh; cbn [fst hits misses length]; lia.
Qed.

(** X9: the counters of the memo add up.  After every session, hits
    plus misses is the number of calls whose key could be built; the
    requests sent are no more than the misses; and the memo holds no
    more entries than requests were sent. *)
Theorem counters_add_up :
  forall (remote : nat -> params -> response) (history : list call),
    let st := run remote initial history in
    hits st + misses st = length (filter hashable_call history) /\
    remote_calls st <= misses st /\
    length (cache st) <= remote_calls st.
Proof.
  intros remote history st. split.
  - subst st. rewrite run_counts. reflexivity.
  - subst st.
    apply (run_invariant remote
             (fun st => remote_calls st <= misses st /\
                        length (cache st) <= remote_calls st)).
    + intros st c [Hm Hc]. unfold remote_calls in *.
      pose proof maxsize_positive.
      destruct (search_step remote st c) as [Hh|v Hh Hg|e Hh Hg Hd|p j Hh Hg Hd _|p msg Hh Hg Hd _];
        cbn [fst cache misses outside sent]; rewrite ?length_app; cbn [length];
        try lia.
      * apply unlink_shorter in Hg. lia.
      * destruct (Nat.leb_spec MAXSIZE (length (cache st)));
          rewrite length_app; cbn [length]; [|lia].
        destruct (cache st); cbn [tl length] in *; lia.
    + cbn. lia.
Qed.

(** ** Binding the arguments *)

Lemma lookup_app (V : Type) (d1 d2 : list (string * V)) (k : string) :
  Dict.lookup (d1 ++ d2)%list k =
  match Dict.lookup d1 k with
  | Some v => Some v
  | None => Dict.lookup d2 k
  end.
Proof.
  induction d1 as [|[k' v'] d1 IH]; cbn [app Dict.lookup]; [reflexivity|].
  destruct (String.eqb k k'); auto.
Qed.

Lemma lookup_none_iff (V : Type) (d : list (string * V)) (k : string) :
  Dict.lookup d k = None <-> ~ In k (map fst d).
Proof.
  induction d as [|[k' v] d IH]; cbn [Dict.lookup map fst In]; [tauto|].
  destruct (String.eqb_spec k k') as [->|Hk].
  - split; [discriminate | tauto].
  - rewrite IH. split; [intros H [?|?]; [congruence | tauto] | tauto].
Qed.

Lemma lookup_in_iff (V : Type) (d : list (string * V)) (k : string) (v : V) :
  NoDup (map fst d) -> (Dict.lookup d k = Some v <-> In (k, v) d).
Proof.
  induction d as [|[k' v'] d IH]; cbn [Dict.lookup map fst In]; intros Hnd.
  - split; [discriminate | tauto].
  - inversion Hnd as [|? ? Hout Hnd']; subst.
    destruct (String.eqb_spec k k') as [->|Hk].
    + split; [intros [= ->]; auto|].
      intros [[= ->]|Hin]; [reflexivity|].
      exfalso. apply Hout. apply in_map_iff. exists (k', v). auto.
    + rewrite (IH Hnd'). split; [auto | intros [[= -> ->]|H]; [congruence | exact H]].
Qed.

Lemma keywords_returns (kw : list (string * argval)) (e e' : Binding.env) :
  Binding.keywords e kw = Return e' -> acceptable e kw /\ e' = (e ++ kw)%list.
Proof.
  revert e; induction kw as [|[k v] kw IH]; intros e; cbn [Binding.keywords].
  - intros [= <-]. split; [|now rewrite app_nil_r].
    split; [intros ? ? [] | constructor].
  - destruct (Binding.is_parameter k) eqn:Hp; cbn [negb]; [|discriminate].
    unfold Binding.is_bound. destruct (Dict.lookup e k) eqn:He; [discriminate|].
    intros H. apply IH in H as [[Hall Hnd] ->]. split; [|now rewrite <- app_assoc].
    split.
    + intros k' v' [[= <- <-]|Hin]; [auto|].
      destruct (Hall _ _ Hin) as [Hp' Hl]. split; [exact Hp'|].
      rewrite (@lookup_app_absent _ e k k' v He) in Hl.
      destruct (String.eqb k' k); [discriminate | exact Hl].
    + cbn [map fst]. constructor; [|exact Hnd].
      intros Hin. apply in_map_iff in Hin as ([k' v'] & Hk & Hin). cbn [fst] in Hk. subst k'.
      destruct (Hall _ _ Hin) as [_ Hl].
      rewrite (@lookup_app_absent _ e k k v He), String.eqb_refl in Hl. discriminate.
Qed.

Lemma keywords_accepts (kw : list (string * argval)) (e : Binding.env) :
  acceptable e kw -> Binding.keywords e kw = Return (e ++ kw)%list.
Proof.
  revert e; induction kw as [|[k v] kw IH]; intros e [Hall Hnd]; cbn [Binding.keywords].
  - now rewrite app_nil_r.
  - destruct (Hall k v (or_introl eq_refl)) as [Hp He].
    rewrite Hp. cbn [negb]. unfold Binding.is_bound. rewrite He.
    cbn [map fst] in Hnd. inversion Hnd as [|? ? Hout Hnd']; subst.
    rewrite IH; [now rewrite <- app_assoc|]. split; [|exact Hnd'].
    intros k' v' Hin. destruct (Hall k' v' (or_intror Hin)) as [Hp' He'].
    split; [exact Hp'|].
    rewrite (@lookup_app_absent _ e k k' v He).
    destruct (String.eqb_spec k' k) as [->|]; [|exact He'].
    exfalso. apply Hout. apply in_map_iff. exists (k, v'). auto.
Qed.

Lemma acceptable_permutation (e : Binding.env) (kw1 kw2 : list (string * argval)) :
  Permutation kw1 kw2 -> acceptable e kw1 -> acceptable e kw2.
Proof.
  intros Hperm [Hall Hnd]. split.
  - intros k v Hin. apply (Hall k v). eapply Permutation_in; [|exact Hin].
    now apply Permutation_sym.
  - eapply Permutation_NoDup; [|exact Hnd]. now apply Permutation_map.
Qed.

Lemma lookup_permutation (e : Binding.env) (kw1 kw2 : list (string * argval)) (k : string) :
  Permutation kw1 kw2 -> NoDup (map fst kw1) ->
  Dict.lookup (e ++ kw1)%list k = Dict.lookup (e ++ kw2)%list k.
Proof.
  intros Hperm Hnd1.
  assert (Hnd2 : NoDup (map fst kw2))
    by (eapply Permutation_NoDup; [|exact Hnd1]; now apply Permutation_map).
  rewrite !lookup_app. destruct (Dict.lookup e k); [reflexivity|].
  destruct (Dict.lookup kw1 k) as [v|] eqn:H1.
  - symmetry. apply (lookup_in_iff _ _ _ Hnd2).
    eapply Permutation_in; [exact Hperm|]. now apply (lookup_in_iff _ _ _ Hnd1).
  - destruct (Dict.lookup kw2 k) as [v|] eqn:H2; [|reflexivity].
    apply (lookup_in_iff _ _ _ Hnd2) in H2.
    apply (Permutation_in _ (Permutation_sym Hperm)) in H2.
    apply (lookup_in_iff _ _ _ Hnd1) in H2. congruence.
Qed.

Lemma keywords_permutation (e : Binding.env) (kw1 kw2 : list (string * argval)) :
  Permutation kw1 kw2 ->
  match Binding.keywords e kw1, Binding.keywords e kw2 with
  | Return e1, Return e2 => forall k, Dict.lookup e1 k = Dict.lookup e2 k
  | Raise x1, Raise x2 => x1 = x2
  | _, _ => False
  end.
Proof.
  intros Hperm.
  assert (Hty : forall kw x, Binding.keywords e kw = Raise x -> x = TypeError).
  { intros kw x. apply (@raises_only_keywords (fun x => x = TypeError)); reflexivity. }
  destruct (Binding.keywords e kw1) as [e1|x1] eqn:H1;
    destruct (Binding.keywords e kw2) as [e2|x2] eqn:H2.
  - apply keywords_returns in H1 as [[_ Hnd] ->].
    apply keywords_returns in H2 as [_ ->].
    intros k. now apply lookup_permutation.
  - apply keywords_returns in H1 as [Hacc _].
    apply (acceptable_permutation Hperm), keywords_accepts in Hacc. congruence.
  - apply keywords_returns in H2 as [Hacc _].
    apply (acceptable_permutation (Permutation_sym Hperm)), keywords_accepts in Hacc.
    congruence.
  - apply Hty in H1, H2. congruence.
Qed.

(** X10: the order in which keyword arguments are written does not
    change the query.  Two calls with the same positional arguments and
    the same keyword arguments in a different order bind the same
    criteria or fail to bind alike, and stand for the same query. *)
Theorem keyword_order_does_not_change_the_query :
  forall c1 c2 : call,
    args c1 = args c2 ->
    Permutation (kwds c1) (kwds c2) ->
    Binding.bind_args c1 = Binding.bind_args c2 /\ descriptor c1 = descriptor c2.
Proof.
  intros c1 c2 Hargs Hperm.
  assert (Hb : Binding.bind_args c1 = Binding.bind_args c2).
  { unfold Binding.bind_args. rewrite Hargs.
    destruct (Binding.positional PARAMETERS (args c2)) as [e|x]; cbn [bind]; [|reflexivity].
    pose proof (keywords_permutation e Hperm) as H.
    destruct (Binding.keywords e (kwds c1)) as [e1|x1];
      destruct (Binding.keywords e (kwds c2)) as [e2|x2]; cbn [bind]; try contradiction.
    - unfold Dict.get. now rewrite !H.
    - now subst. }
  split; [exact Hb|]. unfold descriptor. now rewrite Hb.
Qed.

Lemma keyword_order_does_not_change_the_query_witness :
  Binding.bind_args
    {| self := 0; args := []; kwds := [("title", VStr "dune"); ("sort", VStr "new")] |}
  = Binding.bind_args
      {| self := 0; args := []; kwds := [("sort", VStr "new"); ("title", VStr "dune")] |}
  /\
  descriptor
    {| self := 0; args := []; kwds := [("title", VStr "dune"); ("sort", VStr "new")] |}
  = descriptor
      {| self := 0; args := []; kwds := [("sort", VStr "new"); ("title", VStr "dune")] |}.
Proof.
  apply keyword_order_does_not_change_the_query; [reflexivity|].
  apply perm_swap.
Defined.

Lemma positional_too_many (actuals : list argval) (names : list string) :
  length names < length actuals ->
  Binding.positional names actuals = Raise TypeError.
Proof.
  revert names; induction actuals as [|a actuals IH]; intros names H;
    [cbn in H; lia|].
  destruct names as [|n names]; [reflexivity|].
  cbn [Binding.positional]. rewrite IH by (cbn [length] in H; lia). reflexivity.
Qed.

(** X11: a call that does not fit the signature is an error of its own
    and never reaches the catalogue.  In every state the client can
    reach, a call with more than seven positional arguments, or with a
    keyword that names no parameter, raises [TypeError] when its key can
    be built; it counts as a miss, nothing is sent and nothing is
    stored. *)
Theorem misfit_call_is_rejected :
  forall (remote : nat -> params -> response) (history : list call) (c : call),
    hashable_call c = true ->
    7 < length (args c) \/
    (exists k v, In (k, v) (kwds c) /\ Binding.is_parameter k = false) ->
    let st := run remote initial history in
    search_books remote st c
    = ({| cache := cache st; hits := hits st; misses := S (misses st);
          outside := outside st |},
       Raise TypeError).
Proof.
  intros remote history c Hh Hbad st.
  assert (Hb : Binding.bind_args c = Raise TypeError).
  { unfold Binding.bind_args. destruct Hbad as [Hlen|(k & v & Hin & Hk)].
    - rewrite positional_too_many; [reflexivity | exact Hlen].
    - destruct (Binding.positional PARAMETERS (args c)) as [e|x] eqn:Hp; cbn [bind].
      + destruct (Binding.keywords e (kwds c)) as [e'|x] eqn:Hkw; cbn [bind].
        * apply keywords_returns in Hkw as [[Hall _] _].
          destruct (Hall _ _ Hin) as [Hp' _]. congruence.
        * f_equal. revert Hkw.
          apply (@raises_only_keywords (fun x => x = TypeError)); reflexivity.
      + f_equal. revert Hp.
        apply (@raises_only_positional (fun x => x = TypeError)); reflexivity. }
  assert (Hd : descriptor c = Raise TypeError).
  { unfold descriptor. now rewrite Hb. }
  assert (Hg : Lru.cache_get (cache st) c = None).
  { eapply raising_call_not_cached; [|exact Hd]. apply run_sound, initial_sound. }
  destruct (search_step remote st c) as [Hh'|v _ Hg'|e _ _ Hd'|p j _ _ Hd' _|p msg _ _ Hd' _];
    congruence.
Qed.

Lemma misfit_call_is_rejected_witness :
  search_books no_match (run no_match initial [hobbit])
    {| self := 0; args := []; kwds := [("title", VStr "dune"); ("language", VStr "en")] |}
  = ({| cache := cache (run no_match initial [hobbit]);
        hits := hits (run no_match initial [hobbit]);
        misses := S (misses (run no_match initial [hobbit]));
        outside := outside (run no_match initial [hobbit]) |},
     Raise TypeError).
Proof.
  apply (@misfit_call_is_rejected no_match [hobbit]); [reflexivity|].
  right. exists "language", (VStr "en"). split; [right; left; reflexivity | reflexivity].
Defined.

(** ** The formatter *)

Lemma texts_returns_iff (xs : list json) :
  (exists l, Json.texts xs = Return l) <-> forallb Shape.is_text xs = true.
Proof.
  split; [|apply texts_returns].
  induction xs as [|x xs IH]; [reflexivity|]. cbn [Json.texts forallb].
  intros [l H]. destruct x; try discriminate H. cbn [Shape.is_text andb].
  apply bind_returns in H as (rest & Hrest & _). eauto.
Qed.

Lemma join_returns_iff (sep : string) (v : json) :
  (exists s, Json.join sep v = Return s) <-> joinable v = true.
Proof.
  destruct v; cbn [Json.join joinable];
    try (split; [intros [? H]; discriminate H | discriminate]);
    try (split; [reflexivity | eauto]).
  rewrite <- texts_returns_iff. split.
  - intros [s H]. apply bind_returns in H as (l & Hl & _). eauto.
  - intros [l ->]. cbn [bind]. eauto.
Qed.

Lemma slice_returns_iff (n : nat) (v : json) :
  (exists w, Json.slice_to n v = Return w) <-> sliceable v = true.
Proof.
  destruct v; cbn [Json.slice_to sliceable];
    (split; [intros [? H]; (discriminate H || reflexivity) | (discriminate || eauto)]).
Qed.

(** X12: the formatter returns exactly for the records it can join and
    slice.  It returns a summary if and only if each of [author_name],
    [publisher] and [isbn] is absent or a list of text, a text or an
    object, and the description (the text under [value] when it is an
    object) is absent, a text or a list; the title, the year and the
    cover identifier never make it fail. *)
Theorem formatter_returns_iff_formattable :
  forall result : dict,
    (exists summary, format_search_result result = Return summary)
    <-> formattable result = true.
Proof.
  intros result. rewrite format_search_result_lines. unfold formattable, heading.
  rewrite !andb_true_iff, <- !(join_returns_iff ", "), <- (slice_returns_iff 200).
  split.
  - intros [s H].
    apply bind_returns in H as (h & Hh & H).
    apply bind_returns in Hh as (a & Ha & Hh).
    apply bind_returns in Hh as (p & Hp & Hh).
    apply bind_returns in Hh as (i & Hi & _).
    apply bind_returns in H as (w & Hw & _).
    repeat split; eauto.
  - intros [[[[a ->] [p ->]] [i ->]] [w ->]]. cbn [bind]. eauto.
Qed.

Lemma cover_url_format (id : string) :
  Text.format1 COVER_URL id = "https://covers.openlibrary.org/b/id/" ++ id ++ "-L.jpg".
Proof. reflexivity. Qed.

(** X13: a truthy cover identifier adds one line and changes nothing
    else.  The summary is the summary of the record without [cover_i],
    followed by the line [Cover: ] with the identifier put into the
    address of the large cover image. *)
Theorem truthy_cover_adds_the_cover_line :
  forall (result : dict) (cover_id : json),
    Dict.lookup result "cover_i" = Some cover_id ->
    Json.truthy cover_id = true ->
    format_search_result result
    = (summary <- format_search_result (Dict.remove result "cover_i") ;;
       Return (summary ++ "Cover: https://covers.openlibrary.org/b/id/"
                 ++ Json.str cover_id ++ "-L.jpg" ++ Text.nl)).
Proof.
  intros result cover_id Hc Ht.
  assert (Hline : cover_line result
                  = "Cover: https://covers.openlibrary.org/b/id/"
                      ++ Json.str cover_id ++ "-L.jpg" ++ Text.nl).
  { unfold cover_line, Dict.get. rewrite Hc, Ht, cover_url_format.
    now rewrite !append_assoc. }
  assert (Hline' : cover_line (Dict.remove result "cover_i") = "").
  { unfold cover_line, Dict.get. now rewrite lookup_remove_same. }
  rewrite !format_search_result_lines, Hline, Hline'.
  unfold heading, description_value.
  rewrite !get_remove_other by discriminate.
  destruct (heading result) as [h|e] eqn:Hh; unfold heading in Hh; rewrite Hh;
    cbn [bind]; [|reflexivity].
  destruct (Json.slice_to 200 _); cbn [bind]; [|reflexivity].
  f_equal. rewrite append_empty_r.
  repeat (rewrite !append_assoc; cbn [append]). reflexivity.
Qed.

Lemma truthy_cover_adds_the_cover_line_witness :
  format_search_result [("title", JStr "Dune"); ("cover_i", JInt 42)]
  = (summary <- format_search_result [("title", JStr "Dune")] ;;
     Return (summary ++ "Cover: https://covers.openlibrary.org/b/id/"
               ++ "42" ++ "-L.jpg" ++ Text.nl)).
Proof.
  exact (@truthy_cover_adds_the_cover_line
           [("title", JStr "Dune"); ("cover_i", JInt 42)] (JInt 42) eq_refl eq_refl).
Defined.

(** X14: the formatter reads the seven fields a search asks for by
    default and no other.  Two records that agree on every key of
    [DEFAULT_FIELDS] have the same summary, or fail alike, whatever else
    they hold. *)
Theorem formatter_reads_the_default_fields_only :
  forall r1 r2 : dict,
    (forall k, In k DEFAULT_FIELDS -> Dict.lookup r1 k = Dict.lookup r2 k) ->
    format_search_result r1 = format_search_result r2.
Proof.
  intros r1 r2 H. unfold format_search_result, Dict.get.
  rewrite (H "title"), (H "author_name"), (H "first_publish_year"),
    (H "publisher"), (H "isbn"), (H "cover_i"), (H "description");
    try reflexivity; cbn; tauto.
Qed.

Lemma formatter_reads_the_default_fields_only_witness :
  format_search_result [("key", JStr "/works/OL893415W"); ("title", JStr "Dune")]
  = format_search_result [("title", JStr "Dune"); ("edition_count", JInt 120)].
Proof.
  apply formatter_reads_the_default_fields_only.
  intros k Hk. cbn [DEFAULT_FIELDS In] in Hk.
  repeat (destruct Hk as [<-|Hk]; [reflexivity|]). destruct Hk.
Defined.

(** ** The menu *)

Lemma io_bind_returns (A B : Type) (m : io A) (k : A -> io B)
      (s s' : console) (r : B + abort) :
  io_bind m k s = (s', r) ->
  (exists s1 a, m s = (s1, inl a) /\ k a s1 = (s', r)) \/
  (exists stop, m s = (s', inr stop) /\ r = inr stop).
Proof.
  unfold io_bind. destruct (m s) as [s1 [a|stop]].
  - intros H. left. eauto.
  - intros [= <- <-]. right. eauto.
Qed.

(** What every statement of the loop keeps, given what writing, reading
    and searching keep. *)
Section Preserves.

Variable remote : nat -> params -> response.
Variable int_max_str_digits : nat.
Variable limit_message : nat -> string.
Variable api : nat.

Variable I : console -> Prop.

Hypothesis I_write :
  forall s text, I s -> I {| client := write (client s) text; stdin := stdin s |}.
Hypothesis I_read :
  forall st line rest,
    I {| client := st; stdin := line :: rest |} -> I {| client := st; stdin := rest |}.
Hypothesis I_search :
  forall s kwds,
    menu_call kwds -> I s ->
    I {| client := fst (search_books remote (client s)
                          {| self := api; args := []; kwds := kwds |});
         stdin := stdin s |}.

Definition preserves (A : Type) (m : io A) : Prop :=
  forall s s' r, m s = (s', r) -> I s -> I s'.

Lemma preserves_ret (A : Type) (a : A) : preserves (ret a).
Proof. intros s s' r [= <- _]. auto. Qed.

Lemma preserves_lift (A : Type) (m : outcome A) : preserves (lift m).
Proof. intros s s' r. unfold lift. destruct m; intros [= <- _]; auto. Qed.

Lemma preserves_print (line : string) : preserves (print line).
Proof. intros s s' r [= <- _]. apply I_write. Qed.

Lemma preserves_input (prompt : string) : preserves (input prompt).
Proof.
  intros s s' r. unfold input. destruct s as [st lines]. cbn [client stdin].
  destruct lines as [|line rest]; intros [= <- _] H.
  - apply I_write with (text := prompt) in H. exact H.
  - apply I_write with (text := prompt) in H. cbn [client stdin] in H.
    exact (I_read H).
Qed.

Lemma preserves_bind (A B : Type) (m : io A) (k : A -> io B) :
  preserves m -> (forall a, preserves (k a)) -> preserves (io_bind m k).
Proof.
  intros Hm Hk s s' r H Hs.
  apply io_bind_returns in H as [(s1 & a & H1 & H2)|(stop & H1 & _)].
  - eapply Hk; [exact H2|]. eapply Hm; eassumption.
  - eapply Hm; eassumption.
Qed.

Lemma preserves_search (kwds : list (string * argval)) :
  menu_call kwds -> preserves (search remote api kwds).
Proof.
  intros Hk s s' r. unfold search. intros H Hs.
  pose proof (I_search Hk Hs) as Hnext.
  destruct (search_books remote (client s) _) as [st [j|e]];
    injection H as <- _; exact Hnext.
Qed.

Lemma preserves_show_books (books : list json) (i : Z) : preserves (show_books i books).
Proof.
  revert i; induction books as [|book books IH]; intros i; cbn [show_books].
  - apply preserves_ret.
  - apply preserves_bind; [apply preserves_print|]. intros _.
    apply preserves_bind; [apply preserves_lift|]. intros summary.
    apply preserves_bind; [apply preserves_print|]. intros _. apply IH.
Qed.

Lemma preserves_show_results (results : json) : preserves (show_results results).
Proof.
  unfold show_results.
  apply preserves_bind; [apply preserves_print|]. intros _.
  apply preserves_bind; [apply preserves_lift|]. intros docs.
  apply preserves_bind; [apply preserves_lift|]. intros books.
  apply preserves_bind; [apply preserves_show_books|]. intros _.
  apply preserves_bind; [apply preserves_input|]. intros _. apply preserves_ret.
Qed.

Lemma preserves_display_menu : preserves display_menu.
Proof.
  unfold display_menu.
  repeat (apply preserves_bind; [apply preserves_print|]; intros _).
  apply preserves_input.
Qed.

Lemma decimal_value_nonnegative (s : string) (acc : Z) :
  (0 <= acc)%Z -> (0 <= Typed_text.decimal_value acc s)%Z.
Proof.
  revert acc; induction s as [|c s IH]; intros acc H; cbn [Typed_text.decimal_value];
    [exact H|].
  apply IH. lia.
Qed.

Lemma to_int_nonnegative (s : string) (z : Z) :
  Typed_text.to_int int_max_str_digits limit_message s = Return z -> (0 <= z)%Z.
Proof.
  unfold Typed_text.to_int. destruct (_ && _ && _); [discriminate|].
  destruct (_ && _); [|discriminate]. intros [= <-].
  apply decimal_value_nonnegative. lia.
Qed.

(** The bind of a statement whose value is known to be in [P]. *)
Lemma preserves_bind_value (A B : Type) (P : A -> Prop) (m : io A) (k : A -> io B) :
  (forall s s' a, m s = (s', inl a) -> P a) ->
  preserves m -> (forall a, P a -> preserves (k a)) -> preserves (io_bind m k).
Proof.
  intros HP Hm Hk s s' r H Hs.
  apply io_bind_returns in H as [(s1 & a & H1 & H2)|(stop & H1 & _)].
  - eapply Hk; [eapply HP; exact H1 | exact H2 |]. eapply Hm; eassumption.
  - eapply Hm; eassumption.
Qed.

(** The limit of the advanced search is never negative. *)
Lemma typed_limit_nonnegative (text : string) (s s' : console) (z : Z) :
  (if Typed_text.isdigit text
   then lift (Typed_text.to_int int_max_str_digits limit_message text)
   else ret 5%Z) s = (s', inl z) ->
  (0 <= z)%Z.
Proof.
  destruct (Typed_text.isdigit text).
  - unfold lift. destruct (Typed_text.to_int _ _ text) as [z'|e] eqn:Hz;
      intros [= _ <-]. eapply to_int_nonnegative; exact Hz.
  - intros [= _ <-]. lia.
Qed.

Ltac preserves_step :=
  match goal with
  | |- preserves (io_bind (if Typed_text.isdigit _ then _ else _) _) =>
      apply preserves_bind_value with (P := fun z => (0 <= z)%Z);
      [intros ? ? ?; apply typed_limit_nonnegative
      |destruct (Typed_text.isdigit _)
      |intros ? ?]
  | |- preserves (io_bind _ _) => apply preserves_bind; [|intros ?]
  | |- preserves (ret _) => apply preserves_ret
  | |- preserves (print _) => apply preserves_print
  | |- preserves (input _) => apply preserves_input
  | |- preserves (lift _) => apply preserves_lift
  | |- preserves (show_results _) => apply preserves_show_results
  | |- preserves (if ?b then _ else _) => destruct b eqn:?
  end.

Lemma preserves_dispatch (choice : string) :
  preserves (dispatch remote int_max_str_digits limit_message api choice).
Proof.
  unfold dispatch. cbv zeta.
  repeat preserves_step;
    apply preserves_search; constructor;
    try match goal with
        | H : String.eqb _ "" = false |- _ <> "" => now apply String.eqb_neq
        | H : negb ?b = false |- ?b = true => now apply negb_false_iff in H
        end;
    assumption.
Qed.

Lemma preserves_turn :
  preserves (turn remote int_max_str_digits limit_message api).
Proof.
  unfold turn. apply preserves_bind; [apply preserves_display_menu|].
  intros choice. apply preserves_dispatch.
Qed.

Lemma preserves_main_loop (turns : nat) (s : console) :
  I s -> I (fst (main_loop remote int_max_str_digits limit_message api turns s)).
Proof.
  revert s; induction turns as [|turns IH]; intros s Hs; cbn [main_loop fst];
    [exact Hs|].
  pose proof (@preserves_turn s) as Ht.
  destruct (turn remote int_max_str_digits limit_message api s) as [s' [[|]|stop]];
    cbn [fst]; eauto.
Qed.

End Preserves.

Section MenuRuns.

Variable remote : nat -> params -> response.
Variable int_max_str_digits : nat.
Variable limit_message : nat -> string.
Variable api : nat.

Lemma display_menu_reads (s s1 : console) (choice : string) :
  display_menu s = (s1, inl choice) -> stdin s = choice :: stdin s1.
Proof.
  unfold display_menu, io_bind, print, input. cbn [client stdin].
  destruct (stdin s) as [|line rest]; [discriminate|].
  intros [= <- <-]. reflexivity.
Qed.

(** No statement of the loop puts lines back: the input only shrinks. *)
Lemma dispatch_reads_on (choice : string) (s s' : console) (r : flow + abort) :
  dispatch remote int_max_str_digits limit_message api choice s = (s', r) ->
  length (stdin s') <= length (stdin s).
Proof.
  intros H.
  refine (@preserves_dispatch remote int_max_str_digits limit_message api
            (fun c => length (stdin c) <= length (stdin s)) _ _ _ choice s s' r H _).
  - intros c text Hc. exact Hc.
  - intros st line rest Hc. cbn [stdin length] in *. lia.
  - intros c kwds _ Hc. exact Hc.
  - lia.
Qed.

(** A turn that completes has read a line. *)
Lemma turn_reads (s s' : console) (f : flow) :
  turn remote int_max_str_digits limit_message api s = (s', inl f) ->
  length (stdin s') < length (stdin s).
Proof.
  unfold turn. intros H.
  apply io_bind_returns in H as [(s1 & choice & H1 & H2)|(stop & _ & Hr)];
    [|discriminate Hr].
  apply display_menu_reads in H1. apply dispatch_reads_on in H2.
  rewrite H1. cbn [length]. lia.
Qed.

Lemma main_loop_enough (n m : nat) (s : console) :
  length (stdin s) < n -> length (stdin s) < m ->
  main_loop remote int_max_str_digits limit_message api n s
  = main_loop remote int_max_str_digits limit_message api m s /\
  snd (main_loop remote int_max_str_digits limit_message api n s) <> OutOfTurns.
Proof.
  revert m s; induction n as [|n IH]; intros m s Hn Hm; [lia|].
  destruct m as [|m]; [lia|]. cbn [main_loop].
  destruct (turn remote int_max_str_digits limit_message api s) as [s' [[|]|stop]] eqn:Ht;
    cbn [snd]; try (split; [reflexivity | discriminate]).
  apply turn_reads in Ht. apply IH; lia.
Qed.

End MenuRuns.


(** ** What the menu sends *)

Lemma search_sent (remote : nat -> params -> response) (st : state) (c : call) :
  sent (outside (fst (search_books remote st c))) = sent (outside st) \/
  exists p, descriptor c = Return p /\
            sent (outside (fst (search_books remote st c)))
            = (sent (outside st) ++ [p])%list.
Proof.
  destruct (search_step remote st c) as [Hh|v Hh Hg|e Hh Hg Hd|p j Hh Hg Hd _|p msg Hh Hg Hd _];
    cbn [fst outside sent]; eauto.
Qed.

Lemma menu_call_request (api : nat) (kwds : list (string * argval)) (p : params) :
  menu_call kwds ->
  descriptor {| self := api; args := []; kwds := kwds |} = Return p ->
  menu_request p.
Proof.
  intros Hcall Hd. unfold descriptor in Hd.
  apply bind_returns in Hd as (b & Hb & Hp).
  apply build_params_entries in Hp
    as (_ & _ & _ & _ & (joined & Hj & Hf) & (z & Hz & Hl) & Hpage & _).
  assert (Hshape : fields b = VList DEFAULT_FIELDS /\ page b = VInt 1 /\
                   exists z0, limit b = VInt z0 /\ (0 <= z0)%Z).
  { destruct Hcall; cbn in Hb; injection Hb as <-; cbn [fields page limit];
      repeat split; eexists; (split; [reflexivity | lia]). }
  destruct Hshape as (Hfields & Hpg & z0 & Hz0 & Hpos).
  rewrite Hfields in Hj. cbn [Arg.join] in Hj. injection Hj as <-.
  rewrite Hz0 in Hz. injection Hz as <-.
  unfold menu_request. rewrite Hpage, Hpg, Hf, Hl.
  repeat split. exists (Z.min z0 100). split; [reflexivity | lia].
Qed.

(** X16: from the menu, only the first page is ever asked for, always
    with the seven default fields and with a limit from 0 to 100.  The
    requests a run of [main] sends, whatever is typed and however the
    run ends, come after the ones sent before it and are all of that
    kind. *)
Theorem menu_requests_first_page_only :
  forall (remote : nat -> params -> response) (int_max_str_digits : nat)
         (limit_message : nat -> string) (api : nat)
         (st : state) (lines : list string),
    exists more,
      sent (outside (client (fst (main remote int_max_str_digits limit_message
                                      api st lines))))
      = (sent (outside st) ++ more)%list /\
      Forall menu_request more.
Proof.
  intros remote mx msg api st lines. unfold main.
  apply (@preserves_main_loop remote mx msg api
           (fun c => exists more,
              sent (outside (client c)) = (sent (outside st) ++ more)%list /\
              Forall menu_request more)).
  - intros c text Hc. exact Hc.
  - intros st0 line rest Hc. exact Hc.
  - intros c kwds Hcall (more & Hsent & Hall). cbn [client].
    destruct (search_sent remote (client c) {| self := api; args := []; kwds := kwds |})
      as [Hsame|(p & Hd & Hnew)].
    + exists more. now rewrite Hsame.
    + exists (more ++ [p])%list. rewrite Hnew, Hsent, app_assoc. split; [reflexivity|].
      apply Forall_app. split; [exact Hall|]. constructor; [|constructor].
      eapply menu_call_request; eassumption.
  - exists []. cbn [client]. now rewrite app_nil_r.
Qed.

(** The menu as written on the console. *)
Lemma display_menu_line (st : state) (choice : string) (rest : list string) :
  display_menu {| client := st; stdin := choice :: rest |}
  = ({| client :=
          write (write (write (write (write (write (write st
            (Text.nl ++ "Open Library Book Search"))
            "1. Search by Title") "2. Search by Author") "3. Search by ISBN")
            "4. Advanced Search") "5. Exit") "Enter your choice (1-5): ";
        stdin := rest |},
     inl choice).
Proof. reflexivity. Qed.

Lemma io_bind_input_line (A : Type) (prompt : string) (k : string -> io A)
      (st : state) (line : string) (rest : list string) :
  io_bind (input prompt) k {| client := st; stdin := line :: rest |}
  = k line {| client := write st prompt; stdin := rest |}.
Proof. reflexivity. Qed.

Lemma io_bind_raises (A B : Type) (e : exn) (k : A -> io B) (s : console) :
  io_bind (lift (Raise e)) k s = (s, inr (Uncaught e)).
Proof. reflexivity. Qed.

(** X17: a limit that [str.isdigit] accepts and [int] does not ends the
    program.  In the advanced search, when the limit typed is made of
    digits for [isdigit] but not of the digits [0] to [9] alone (a
    superscript two, say), [main] ends with the [ValueError] of [int];
    the sort is not asked for, nothing is sent and the memo is
    untouched. *)
Theorem digit_limit_can_end_the_program :
  forall (remote : nat -> params -> response) (int_max_str_digits : nat)
         (limit_message : nat -> string) (api : nat) (st : state)
         (title author isbn limit : string) (rest : list string),
    Typed_text.isdigit (Typed_text.strip limit) = true ->
    Typed_text.all_chars Typed_text.decimal (Typed_text.strip limit) = false ->
    exists message,
      snd (main remote int_max_str_digits limit_message api st
             ("4" :: title :: author :: isbn :: limit :: rest))
      = Aborted (Uncaught (ValueError message)) /\
      stdin (fst (main remote int_max_str_digits limit_message api st
                    ("4" :: title :: author :: isbn :: limit :: rest))) = rest /\
      sent (outside (client (fst (main remote int_max_str_digits limit_message api st
                                    ("4" :: title :: author :: isbn :: limit :: rest)))))
      = sent (outside st) /\
      cache (client (fst (main remote int_max_str_digits limit_message api st
                            ("4" :: title :: author :: isbn :: limit :: rest))))
      = cache st.
Proof.
  intros remote mx msg api st title author isbn limit rest Hdigit Hdec.
  assert (Hint : exists message,
             Typed_text.to_int mx msg (Typed_text.strip limit)
             = Raise (ValueError message)).
  { unfold Typed_text.to_int. rewrite Hdec, andb_false_r.
    destruct (_ && _ && _); eauto. }
  destruct Hint as [message Hint]. exists message.
  assert (Hrun : exists c,
             main remote mx msg api st ("4" :: title :: author :: isbn :: limit :: rest)
             = ({| client := c; stdin := rest |}, Aborted (Uncaught (ValueError message)))
             /\ sent (outside c) = sent (outside st) /\ cache c = cache st);
    [|destruct Hrun as (c & -> & Hsent & Hcache); cbn [fst snd client stdin]; auto].
  unfold main. cbn [length main_loop]. unfold turn at 1.
  unfold io_bind at 1. rewrite display_menu_line.
  change (dispatch remote mx msg api "4")
    with (fun s : console =>
            (line <~ input "Enter title (optional): " ;;
             let title := optional line in
             line <~ input "Enter author (optional): " ;;
             let author := optional line in
             line <~ input "Enter ISBN (optional): " ;;
             let isbn := optional line in
             line <~ input "Max results (default 5): " ;;
             let limit := Typed_text.strip line in
             limit <~ (if Typed_text.isdigit limit
                       then lift (Typed_text.to_int mx msg limit)
                       else ret 5%Z) ;;
             line <~ input "Sort by (new/old/title/none): " ;;
             let sort := sort_choice line in
             if negb (existsb Arg.truthy [title; author; isbn]) then
               print "At least one search parameter is required" ;;; ret Next
             else
               results <~ search remote api
                            [("title", title); ("author", author); ("isbn", isbn);
                             ("limit", VInt limit); ("sort", sort)] ;;
               show_results results ;;; ret Next) s).
  cbv beta. rewrite !io_bind_input_line. cbv zeta.
  rewrite Hdigit, Hint, io_bind_raises.
  eexists. repeat split.
Qed.

Lemma digit_limit_can_end_the_program_witness :
  exists message,
    snd (main no_match 4300 (fun _ => "too many digits") 0 initial
           ["4"; "dune"; ""; ""; String (ascii_of_nat 178) ""; "new"; ""; "5"])
    = Aborted (Uncaught (ValueError message)) /\
    stdin (fst (main no_match 4300 (fun _ => "too many digits") 0 initial
                  ["4"; "dune"; ""; ""; String (ascii_of_nat 178) ""; "new"; ""; "5"]))
    = ["new"; ""; "5"] /\
    sent (outside (client (fst (main no_match 4300 (fun _ => "too many digits") 0 initial
                                  ["4"; "dune"; ""; ""; String (ascii_of_nat 178) "";
                                   "new"; ""; "5"]))))
    = sent (outside initial) /\
    cache (client (fst (main no_match 4300 (fun _ => "too many digits") 0 initial
                          ["4"; "dune"; ""; ""; String (ascii_of_nat 178) "";
                           "new"; ""; "5"])))
    = cache initial.
Proof.
  exact (@digit_limit_can_end_the_program no_match 4300 (fun _ => "too many digits") 0
           initial "dune" "" "" (String (ascii_of_nat 178) "") ["new"; ""; "5"]
           eq_refl eq_refl).
Defined.

(** ** A run without a crash *)

Lemma formattable_returns (result : dict) :
  formattable result = true -> exists summary, format_search_result result = Return summary.
Proof.
  rewrite format_search_result_lines. unfold formattable, heading.
  rewrite !andb_true_iff, <- !(join_returns_iff ", "), <- (slice_returns_iff 200).
  intros [[[[a ->] [p ->]] [i ->]] [w ->]]. cbn [bind]. eauto.
Qed.

Lemma sort_choice_text_or_none (line : string) :
  Typed.text_or_none (sort_choice line) = true /\ Arg.hashable (sort_choice line) = true.
Proof. unfold sort_choice. cbv zeta. destruct (existsb _ _); split; reflexivity. Qed.

Lemma optional_text_or_none (line : string) :
  Typed.text_or_none (optional line) = true /\ Arg.hashable (optional line) = true.
Proof. unfold optional. cbv zeta. destruct (String.eqb _ _); split; reflexivity. Qed.

Lemma truthy_text (s : string) : s <> "" -> Arg.truthy (VStr s) = true.
Proof. intros H. cbn. now apply negb_true_iff, String.eqb_neq. Qed.

Lemma menu_call_hashable (api : nat) (kw : list (string * argval)) :
  menu_call kw -> hashable_call {| self := api; args := []; kwds := kw |} = true.
Proof.
  intros []; unfold hashable_call; cbn [args kwds forallb snd Arg.hashable andb];
    rewrite ?(proj2 (sort_choice_text_or_none _)), ?(proj2 (optional_text_or_none _));
    reflexivity.
Qed.

Lemma menu_call_descriptor (api : nat) (kwds : list (string * argval)) :
  menu_call kwds ->
  exists p, descriptor {| self := api; args := []; kwds := kwds |} = Return p.
Proof.
  intros Hcall.
  assert (Hb : exists b,
             Binding.bind_args {| self := api; args := []; kwds := kwds |} = Return b /\
             Typed.well_typed b = true /\ any_given b = true).
  { destruct Hcall as [t line Ht|a Ha|i Hi|t a i line z Hany Hz];
      (eexists; split; [reflexivity|]);
      unfold Typed.well_typed, any_given;
      cbn [title author isbn fields limit page sort Dict.get Dict.lookup app
           String.eqb Ascii.eqb Bool.eqb existsb
           Typed.text_or_none Typed.names Typed.int andb];
      rewrite ?(proj1 (sort_choice_text_or_none _)), ?(proj1 (optional_text_or_none _));
      cbn [andb]; (split; [reflexivity|]).
    - now rewrite truthy_text.
    - rewrite truthy_text by assumption. now rewrite ?orb_true_r.
    - rewrite truthy_text by assumption. now rewrite ?orb_true_r.
    - exact Hany. }
  destruct Hb as (b & Hb & Hty & Hany).
  destruct (build_params_typed b Hty Hany) as (p & Hp & _).
  exists p. unfold descriptor. now rewrite Hb.
Qed.

Section Safe.

Variable remote : nat -> params -> response.
Variable int_max_str_digits : nat.
Variable limit_message : nat -> string.
Variable api : nat.

(** The catalogue answers every request, with an answer that can be
    shown. *)
Hypothesis remote_showable :
  forall n p, exists j, remote n p = Body j /\ showable j = true.

(** From a good console, the statement completes with a value in [Post]
    and leaves a good console, or it stops at the end of the input; no
    exception of the client leaves it. *)
Definition safe (A : Type) (Post : A -> Prop) (m : io A) : Prop :=
  forall s, good int_max_str_digits limit_message s ->
    match m s with
    | (s', inl a) => good int_max_str_digits limit_message s' /\ Post a
    | (_, inr EOFError) => True
    | (_, inr (Uncaught _)) => False
    end.

Lemma safe_ret (A : Type) (Post : A -> Prop) (a : A) : Post a -> safe Post (ret a).
Proof. intros H s Hs. cbn. auto. Qed.

Lemma safe_print (line : string) : safe (fun _ => True) (print line).
Proof. intros s [Hc Hl]. cbn. repeat split; assumption. Qed.

Lemma safe_input (prompt : string) :
  safe (good_line int_max_str_digits limit_message) (input prompt).
Proof.
  intros [st lines] [Hc Hl]. unfold input. cbn [client stdin] in *.
  destruct lines as [|line rest]; [exact I|].
  inversion Hl; subst. repeat split; assumption.
Qed.

Lemma safe_lift (A : Type) (Post : A -> Prop) (m : outcome A) (a : A) :
  m = Return a -> Post a -> safe Post (lift m).
Proof. intros -> H s Hs. cbn. auto. Qed.

Lemma safe_bind (A B : Type) (P : A -> Prop) (Q : B -> Prop)
      (m : io A) (k : A -> io B) :
  safe P m -> (forall a, P a -> safe Q (k a)) -> safe Q (io_bind m k).
Proof.
  intros Hm Hk s Hs. unfold io_bind. specialize (Hm s Hs).
  destruct (m s) as [s1 [a|[e|]]]; try contradiction; [|exact I].
  destruct Hm as [Hs1 Ha]. exact (Hk a Ha s1 Hs1).
Qed.

Lemma safe_search (kwds : list (string * argval)) :
  menu_call kwds -> safe (fun j => showable j = true) (search remote api kwds).
Proof.
  intros Hcall s [Hc Hl]. unfold search.
  pose proof (menu_call_hashable api Hcall) as Hh.
  destruct (menu_call_descriptor api Hcall) as [p0 Hp0].
  destruct (search_step remote (client s) {| self := api; args := []; kwds := kwds |})
    as [Hh'|v _ Hg|e _ _ Hd|p j _ _ Hd Hr|p msg _ _ Hd Hr];
    try congruence.
  - assert (Hv : showable v = true) by (apply cache_get_some_in in Hg; eauto).
    repeat split; try assumption. cbn [client cache]. intros k' v' Hin.
    apply in_app_or in Hin as [Hin|[[= <- <-]|[]]]; [|exact Hv].
    apply filter_In in Hin as [Hin _]. eauto.
  - destruct (remote_showable (length (sent (outside (client s)))) p) as (j' & Hj' & Hshow).
    assert (j' = j) by congruence. subst j'.
    repeat split; try assumption. cbn [client cache]. intros k' v' Hin.
    assert (Hold : In (k', v') (cache (client s)) \/ v' = j).
    { destruct (MAXSIZE <=? length (cache (client s)))%nat;
        apply in_app_or in Hin as [Hin|[[= _ <-]|[]]]; auto.
      left. now apply in_tl. }
    destruct Hold as [Hin'| ->]; eauto.
  - destruct (remote_showable (length (sent (outside (client s)))) p) as (j' & Hj' & _).
    congruence.
Qed.

Lemma safe_show_books (books : list json) (i : Z) :
  forallb showable_book books = true -> safe (fun _ => True) (show_books i books).
Proof.
  revert i; induction books as [|book books IH]; intros i H; cbn [show_books].
  - now apply safe_ret.
  - cbn [forallb] in H. apply andb_true_iff in H as [Hbook Hrest].
    eapply safe_bind; [apply safe_print|]. intros _ _.
    destruct book; try discriminate Hbook. cbn [showable_book] in Hbook.
    destruct (formattable_returns _ Hbook) as [summary Hsum].
    eapply safe_bind; [apply (@safe_lift _ (fun _ => True) _ summary); [exact Hsum | exact I]|].
    intros a _. eapply safe_bind; [apply safe_print|]. intros _ _. now apply IH.
Qed.

Lemma safe_show_results (results : json) :
  showable results = true -> safe (fun _ => True) (show_results results).
Proof.
  intros H. unfold show_results.
  destruct results as [| | | | | |d]; try discriminate H. cbn [showable] in H.
  destruct (Dict.get d "docs" (JList [])) as [| | | | |books|] eqn:Hdocs;
    try discriminate H.
  eapply safe_bind; [apply safe_print|]. intros _ _.
  eapply safe_bind;
    [apply (@safe_lift _ (fun docs => docs = JList books) _ (JList books));
     [cbn [docs_of]; now rewrite Hdocs | reflexivity]|].
  intros docs ->.
  eapply safe_bind;
    [apply (@safe_lift _ (fun l => l = books) _ books); reflexivity|].
  intros l ->.
  eapply safe_bind; [now apply safe_show_books|]. intros _ _.
  eapply safe_bind; [apply safe_input|]. intros line _. now apply safe_ret.
Qed.

Lemma safe_limit (line : string) :
  good_line int_max_str_digits limit_message line ->
  safe (fun z => (0 <= z)%Z)
       (if Typed_text.isdigit (Typed_text.strip line)
        then lift (Typed_text.to_int int_max_str_digits limit_message
                     (Typed_text.strip line))
        else ret 5%Z).
Proof.
  intros Hline. unfold good_line in Hline.
  destruct (Typed_text.isdigit (Typed_text.strip line)).
  - destruct (Hline eq_refl) as [z Hz].
    eapply safe_lift; [exact Hz|]. eapply to_int_nonnegative; exact Hz.
  - apply safe_ret. lia.
Qed.

Lemma safe_display_menu : safe (fun _ => True) display_menu.
Proof.
  unfold display_menu.
  repeat (eapply safe_bind; [apply safe_print|]; intros _ _).
  intros s Hs. pose proof (safe_input "Enter your choice (1-5): " Hs) as H.
  destruct (input _ s) as [s' [a|[e|]]]; try contradiction; [|exact I].
  split; [apply H | exact I].
Qed.

(** The end of a branch of the loop's body: the search, the results,
    and on to the next turn. *)
Lemma safe_search_and_show (kwds : list (string * argval)) :
  menu_call kwds ->
  safe (fun _ => True)
       (results <~ search remote api kwds ;; show_results results ;;; ret Next).
Proof.
  intros Hcall. eapply safe_bind; [now apply safe_search|].
  intros results Hres. eapply safe_bind; [now apply safe_show_results|].
  intros _ _. now apply safe_ret.
Qed.

Lemma safe_say_and_go_on (line : string) :
  safe (fun _ : flow => True) (print line ;;; ret Next).
Proof. eapply safe_bind; [apply safe_print|]. intros _ _. now apply safe_ret. Qed.

Lemma safe_dispatch (choice : string) :
  safe (fun _ => True) (dispatch remote int_max_str_digits limit_message api choice).
Proof.
  unfold dispatch. cbv zeta.
  destruct (String.eqb choice "1").
  { eapply safe_bind; [apply safe_input|]. intros line _.
    destruct (String.eqb (Typed_text.strip line) "") eqn:E;
      [apply safe_say_and_go_on|].
    eapply safe_bind; [apply safe_input|]. intros sort _.
    apply safe_search_and_show. constructor. now apply String.eqb_neq. }
  destruct (String.eqb choice "2").
  { eapply safe_bind; [apply safe_input|]. intros line _.
    destruct (String.eqb (Typed_text.strip line) "") eqn:E;
      [apply safe_say_and_go_on|].
    apply safe_search_and_show. constructor. now apply String.eqb_neq. }
  destruct (String.eqb choice "3").
  { eapply safe_bind; [apply safe_input|]. intros line _.
    destruct (String.eqb (Typed_text.strip line) "") eqn:E;
      [apply safe_say_and_go_on|].
    apply safe_search_and_show. constructor. now apply String.eqb_neq. }
  destruct (String.eqb choice "4").
  { eapply safe_bind; [apply safe_input|]. intros title _.
    eapply safe_bind; [apply safe_input|]. intros author _.
    eapply safe_bind; [apply safe_input|]. intros isbn _.
    eapply safe_bind; [apply safe_input|]. intros line Hline.
    eapply safe_bind; [now apply safe_limit|]. intros limit Hlimit.
    eapply safe_bind; [apply safe_input|]. intros sort _.
    destruct (negb _) eqn:E; [apply safe_say_and_go_on|].
    apply safe_search_and_show. constructor; [|exact Hlimit].
    now apply negb_false_iff in E. }
  destruct (String.eqb choice "5").
  { eapply safe_bind; [apply safe_print|]. intros _ _. now apply safe_ret. }
  apply safe_say_and_go_on.
Qed.

Lemma safe_turn :
  safe (fun _ => True) (turn remote int_max_str_digits limit_message api).
Proof.
  unfold turn. eapply safe_bind; [apply safe_display_menu|].
  intros choice _. apply safe_dispatch.
Qed.

Lemma safe_main_loop (turns : nat) (s : console) :
  good int_max_str_digits limit_message s ->
  match snd (main_loop remote int_max_str_digits limit_message api turns s) with
  | Aborted (Uncaught _) => False
  | _ => True
  end.
Proof.
  revert s; induction turns as [|turns IH]; intros s Hs; cbn [main_loop]; [exact I|].
  pose proof (safe_turn Hs) as Ht.
  destruct (turn remote int_max_str_digits limit_message api s) as [s' [[|]|[e|]]];
    cbn [snd]; try contradiction; try exact I.
  apply IH, Ht.
Qed.

End Safe.

(** X18: with a catalogue that answers and input that [int] accepts,
    the menu does not crash.  When every request is answered with an
    object whose [docs], if any, is a list of records the formatter can
    format, and every line that [str.isdigit] accepts once stripped is
    one [int] accepts, a run of [main] started in any state the client
    can reach ends by returning after the choice [5] or with the
    [EOFError] at the end of the input: no other exception leaves it. *)
Theorem menu_does_not_crash :
  forall (remote : nat -> params -> response) (int_max_str_digits : nat)
         (limit_message : nat -> string) (api : nat)
         (history : list call) (lines : list string),
    (forall n p, exists j, remote n p = Body j /\ showable j = true) ->
    Forall (good_line int_max_str_digits limit_message) lines ->
    let ended := snd (main remote int_max_str_digits limit_message api
                        (run remote initial history) lines) in
    ended = Returned \/ ended = Aborted EOFError.
Proof.
  intros remote mx msg api history lines Hremote Hlines ended.
  assert (Hgood : good mx msg {| client := run remote initial history; stdin := lines |}).
  { split; [|exact Hlines]. cbn [client]. intros k v Hin.
    destruct (@run_sound remote history initial (initial_sound remote) k v Hin)
      as (n & p & _ & _ & Hr).
    destruct (Hremote n p) as (j & Hj & Hshow). congruence. }
  pose proof (@safe_main_loop remote mx msg api Hremote (S (length lines)) _ Hgood) as Hsafe.
  destruct (@main_loop_enough remote mx msg api (S (length lines)) (S (length lines))
              {| client := run remote initial history; stdin := lines |}) as [_ Hne];
    cbn [stdin]; try lia.
  subst ended. unfold main.
  destruct (snd (main_loop remote mx msg api (S (length lines)) _)) as [|[e|]|];
    auto; contradiction.
Qed.

Lemma menu_does_not_crash_witness :
  snd (main one_book 4300 (fun _ => "too many digits") 0
         (run one_book initial [hobbit]) two_searches) = Returned \/
  snd (main one_book 4300 (fun _ => "too many digits") 0
         (run one_book initial [hobbit]) two_searches) = Aborted EOFError.
Proof.
  apply (@menu_does_not_crash one_book 4300 (fun _ => "too many digits") 0
           [hobbit] two_searches).
  - intros n p. eexists. split; reflexivity.
  - unfold two_searches, good_line.
    repeat (constructor;
            [first [ intros H; vm_compute in H; discriminate H
                   | intros _; eexists; vm_compute; reflexivity ]|]).
    constructor.
Defined.

(** ** A failed request at the menu *)

Lemma format_raises_type_error (result : dict) :
  raises_only (fun e => e = TypeError) (format_search_result result).
Proof.
  rewrite format_search_result_lines. unfold heading.
  assert (Hjoin : forall sep v, raises_only (fun e => e = TypeError) (Json.join sep v)).
  { intros sep v e. destruct v; cbn [Json.join]; try (intros [= <-]; reflexivity);
      try discriminate.
    destruct (Json.texts xs) as [l|e'] eqn:Ht; cbn [bind]; [discriminate|].
    intros [= ->]. revert e Ht. induction xs as [|x xs IH]; cbn [Json.texts];
      [discriminate|].
    destruct x; try (intros e [= <-]; reflexivity).
    destruct (Json.texts xs) as [l|e'] eqn:Hxs; cbn [bind]; [discriminate|].
    intros e [= <-]. now apply IH. }
  repeat (apply raises_only_bind; [|intros ?]); try apply Hjoin;
    try apply raises_only_return.
  intros e. destruct (description_value result); cbn [Json.slice_to];
    try discriminate; intros [= <-]; reflexivity.
Qed.

Section Reports.

Variable remote : nat -> params -> response.
Variable int_max_str_digits : nat.
Variable limit_message : nat -> string.
Variable api : nat.

(** When the statement ends with a [RequestException], the last entry
    written is the report of that failure. *)
Definition reports (A : Type) (m : io A) : Prop :=
  forall s s' msg,
    m s = (s', inr (Uncaught (RequestException msg))) ->
    exists before,
      stdout (outside (client s')) = (before ++ [("API request failed: " ++ msg)%string])%list.

Lemma reports_ret (A : Type) (a : A) : reports (ret a).
Proof. intros s s' msg H. discriminate H. Qed.

Lemma reports_print (line : string) : reports (print line).
Proof. intros s s' msg H. discriminate H. Qed.

Lemma reports_input (prompt : string) : reports (input prompt).
Proof.
  intros s s' msg. unfold input. destruct (stdin s); discriminate.
Qed.

Lemma reports_lift (A : Type) (m : outcome A) :
  raises_only not_request_exception m -> reports (lift m).
Proof.
  intros Hm s s' msg. unfold lift. destruct m as [a|e] eqn:E; [discriminate|].
  intros [= _ ->]. exfalso. exact (Hm _ eq_refl msg eq_refl).
Qed.

Lemma reports_bind (A B : Type) (m : io A) (k : A -> io B) :
  reports m -> (forall a, reports (k a)) -> reports (io_bind m k).
Proof.
  intros Hm Hk s s' msg H.
  apply io_bind_returns in H as [(s1 & a & _ & H2)|(stop & H1 & Hr)].
  - eapply Hk; exact H2.
  - injection Hr as <-. eapply Hm; exact H1.
Qed.

Lemma reports_search (kwds : list (string * argval)) : reports (search remote api kwds).
Proof.
  intros s s' msg. unfold search.
  assert (Hloc : raises_only not_request_exception
                   (descriptor {| self := api; args := []; kwds := kwds |}))
    by (apply raises_only_descriptor; intros m; discriminate).
  destruct (search_step remote (client s) {| self := api; args := []; kwds := kwds |})
    as [Hh|v Hh Hg|e Hh Hg Hd|p j Hh Hg Hd _|p m Hh Hg Hd _];
    try discriminate.
  - intros [= _ ->]. exfalso. exact (Hloc _ Hd msg eq_refl).
  - intros [= <- ->]. cbn [client outside stdout]. eauto.
Qed.

Lemma reports_only_local (A : Type) (m : outcome A) (P : exn -> Prop) :
  raises_only P m -> (forall e, P e -> not_request_exception e) -> reports (lift m).
Proof.
  intros Hm HP. apply reports_lift. intros e He. apply HP. now apply Hm.
Qed.

Lemma reports_show_books (books : list json) (i : Z) : reports (show_books i books).
Proof.
  revert i; induction books as [|book books IH]; intros i; cbn [show_books].
  - apply reports_ret.
  - apply reports_bind; [apply reports_print|]. intros _.
    apply reports_bind.
    + apply reports_only_local with (P := fun e => e = TypeError \/ e = AttributeError).
      * destruct book; cbn [format_book]; try (intros e [= <-]; auto).
        intros e He. left. now apply (@format_raises_type_error kvs).
      * intros e [->| ->] m; discriminate.
    + intros summary. apply reports_bind; [apply reports_print|]. intros _. apply IH.
Qed.

Lemma reports_show_results (results : json) : reports (show_results results).
Proof.
  unfold show_results.
  apply reports_bind; [apply reports_print|]. intros _.
  apply reports_bind.
  { apply reports_lift. intros e. destruct results; cbn [docs_of];
      try discriminate; intros [= <-] m; discriminate. }
  intros docs. apply reports_bind.
  { apply reports_lift. intros e. destruct docs; cbn [items_of];
      try discriminate; intros [= <-] m; discriminate. }
  intros books. apply reports_bind; [apply reports_show_books|]. intros _.
  apply reports_bind; [apply reports_input|]. intros _. apply reports_ret.
Qed.

Lemma reports_to_int (text : string) :
  reports (lift (Typed_text.to_int int_max_str_digits limit_message text)).
Proof.
  apply reports_lift. intros e. unfold Typed_text.to_int.
  destruct (_ && _ && _); [intros [= <-] m; discriminate|].
  destruct (_ && _); [discriminate | intros [= <-] m; discriminate].
Qed.

Ltac reports_step :=
  match goal with
  | |- reports (io_bind _ _) => apply reports_bind; [|intros ?]
  | |- reports (ret _) => apply reports_ret
  | |- reports (print _) => apply reports_print
  | |- reports (input _) => apply reports_input
  | |- reports (lift (Typed_text.to_int _ _ _)) => apply reports_to_int
  | |- reports (search _ _ _) => apply reports_search
  | |- reports (show_results _) => apply reports_show_results
  | |- reports (if ?b then _ else _) => destruct b
  end.

Lemma reports_turn : reports (turn remote int_max_str_digits limit_message api).
Proof.
  unfold turn, display_menu, dispatch. cbv zeta. repeat reports_step.
Qed.

Lemma reports_main_loop (turns : nat) (s : console) (msg : string) :
  snd (main_loop remote int_max_str_digits limit_message api turns s)
  = Aborted (Uncaught (RequestException msg)) ->
  exists before,
    stdout (outside (client (fst (main_loop remote int_max_str_digits limit_message
                                    api turns s))))
    = (before ++ [("API request failed: " ++ msg)%string])%list.
Proof.
  revert s; induction turns as [|turns IH]; intros s; cbn [main_loop];
    [discriminate|].
  pose proof (@reports_turn s) as Ht.
  destruct (turn remote int_max_str_digits limit_message api s) as [s' [[|]|stop]];
    cbn [fst snd]; try discriminate.
  - apply IH.
  - intros [= ->]. eapply Ht. reflexivity.
Qed.

End Reports.

(** X19: the menu does not handle a failed request.  When a run of
    [main] ends with a [RequestException], the last thing written is
    the report [API request failed: ] with the message of that
    exception: after the failure nothing more is shown and no further
    turn is taken. *)
Theorem failed_request_ends_the_menu :
  forall (remote : nat -> params -> response) (int_max_str_digits : nat)
         (limit_message : nat -> string) (api : nat)
         (st : state) (lines : list string) (msg : string),
    snd (main remote int_max_str_digits limit_message api st lines)
    = Aborted (Uncaught (RequestException msg)) ->
    exists before,
      stdout (outside (client (fst (main remote int_max_str_digits limit_message
                                      api st lines))))
      = (before ++ [("API request failed: " ++ msg)%string])%list.
Proof.
  intros remote mx lm api st lines msg. unfold main. apply reports_main_loop.
Qed.

Lemma failed_request_ends_the_menu_witness :
  exists before,
    stdout (outside (client (fst (main flaky 4300 (fun _ => "too many digits") 0
                                    initial ["2"; "Frank Herbert"; ""; "5"]))))
    = (before ++ [("API request failed: " ++ "timed out")%string])%list.
Proof.
  exact (@failed_request_ends_the_menu flaky 4300 (fun _ => "too many digits") 0
           initial ["2"; "Frank Herbert"; ""; "5"] "timed out" eq_refl).
Defined.
